(** * Voice memo Discord bot: playback core

    A shallow embedding of the bot's Go source (package [main]) and the
    properties of its frame decoder, clip catalog, play queue, guild
    sessions and command dispatcher.

    Conventions of the embedding.
    - A Go [[]byte] is a [list byte]; a Go [string] is a [string].
    - [int16] and [int] values are integers in [Z]; the conversion to
      [int16] writes its wrap-around out.
    - A Go [map[string]*T] is a [gmap string T].  The handlers run to
      completion one at a time in the sequential part of the model, so a
      pointer is represented by the value it points to and a mutation
      through the pointer by an update of the map entry.
    - Output (console lines, chat messages, voice frames) is collected in a
      trace of [Event]s, oldest first.
    - A run-time panic is an explicit outcome, never an exception of the
      meta-language. *)

From Stdlib Require Import ZArith Lia List.
From Stdlib.Strings Require Import String Ascii Byte.
From Equations Require Import Equations.
From stdpp Require Import gmap strings list fin_maps.

Local Open Scope string_scope.
Local Open Scope list_scope.
Local Open Scope Z_scope.

(** ** Errors and outcomes *)

(** The [error] values the program can observe. *)
Inductive error : Type :=
| EOF                (* io.EOF *)
| ErrUnexpectedEOF   (* io.ErrUnexpectedEOF *)
| ErrNotExist.       (* *fs.PathError from os.Open / os.ReadDir *)

Global Instance error_eq_dec : EqDecision error.
Proof. solve_decision. Defined.

(** How a call ends: it returns (a Go [error] is [Some e], [nil] is [None])
    or the goroutine panics. *)
Inductive Outcome : Type :=
| Returned (err : option error)
| Panicked (msg : string).

Global Instance Outcome_eq_dec : EqDecision Outcome.
Proof. solve_decision. Defined.

(** ** What the program does to the outside *)

(** An operand of [fmt.Println]. *)
Inductive Arg : Type :=
| AStr (s : string)
| AInt (n : Z)
| AErr (e : error).

Inductive Event : Type :=
| Println (args : list Arg)                       (* a console line *)
| ChannelMessageSend (channel content : string)   (* a chat message *)
| SendEmbed (channel title : string) (fields : list string)
| VoiceJoin (guild channel : string)              (* s.ChannelVoiceJoin *)
| Speaking (guild : string) (on : bool)           (* vc.Speaking(on) *)
| OpusSend (guild : string) (frame : list byte)   (* vc.OpusSend <- frame *)
| Sleep (milliseconds : Z)                        (* time.Sleep *)
| VoiceDisconnect (guild : string).               (* vc.Disconnect() *)

(** ** Package [io] and [encoding/binary] *)

Global Instance byte_eq_decision : EqDecision byte := Byte.byte_eq_dec.

Definition byte_Z (b : byte) : Z := Z.of_N (Byte.to_N b).

(** [io.ReadFull(r, buf)] with [len(buf) = n] on a reader holding the bytes
    [r]: exactly [n] bytes, or [io.EOF] when nothing could be read and
    [io.ErrUnexpectedEOF] when the input ends early.  Reading [0] bytes
    succeeds, also at the end of the input. *)
Definition ReadFull (r : list byte) (n : nat) : (list byte * list byte) + error :=
  if (length r <? n)%nat
  then inr (match r with [] => EOF | _ :: _ => ErrUnexpectedEOF end)
  else inl (take n r, drop n r).

(** [binary.LittleEndian.Uint16(b)]: [uint16(b[0]) | uint16(b[1])<<8]. *)
Definition Uint16 (b : list byte) : Z :=
  match b with
  | b0 :: b1 :: _ => Z.lor (byte_Z b0) (Z.shiftl (byte_Z b1) 8)
  | _ => 0
  end.

(** The conversion [int16(u)] of a [uint16]: two's complement. *)
Definition int16 (u : Z) : Z :=
  if u <? 32768 then u else u - 65536.

(** [binary.Read(r, binary.LittleEndian, &opuslen)] with [opuslen int16]. *)
Definition Read_int16 (r : list byte) : (Z * list byte) + error :=
  match ReadFull r 2 with
  | inl (bs, rest) => inl (int16 (Uint16 bs), rest)
  | inr e => inr e
  end.

(** [binary.Read(r, binary.LittleEndian, &IntBuf)] with [IntBuf []byte] of
    length [n]: the reflection path reads [n] bytes in full. *)
Definition Read_bytes (r : list byte) (n : nat) : (list byte * list byte) + error :=
  ReadFull r n.

(** ** The frame codec: [VoiceMemo.Load] *)

Record VoiceMemo : Type := mkVoiceMemo {
  name : string;
  buffer : list (list byte)
}.

Global Instance VoiceMemo_eq_dec : EqDecision VoiceMemo.
Proof. solve_decision. Defined.

(** The directory [voicememo_files/]: file name to contents. *)
Abbreviation Disk := (gmap string (list byte)).

(** A value together with the equation that names it, so that the
    termination argument below can use the result of a read. *)
Definition inspect {A : Type} (x : A) : {y : A | x = y} := exist _ x eq_refl.

(** The [for] loop of [Load] on the bytes still unread and the frames
    appended so far: the frames at the end of the loop, the lines printed
    on the console and how the loop ended.  [make([]byte, opuslen)] panics
    for a negative [opuslen].  [file.Close()] of the read-only handle is
    taken to return [nil]. *)
Equations? Load_loop (file : list byte) (buf : list (list byte))
  : list (list byte) * list Event * Outcome by wf (length file) lt :=
  Load_loop file buf with inspect (Read_int16 file) := {
    | exist _ (inr EOF) _ => (buf, [], Returned None)
    | exist _ (inr ErrUnexpectedEOF) _ => (buf, [], Returned None)
    | exist _ (inr e) _ =>
        (buf, [Println [AStr "Error reading from dca file1 :"; AErr e]],
         Returned (Some e))
    | exist _ (inl (opuslen, rest)) Hlen with (opuslen <? 0) := {
      | true => (buf, [], Panicked "makeslice: len out of range")
      | false with inspect (Read_bytes rest (Z.to_nat opuslen)) := {
        | exist _ (inr e) _ =>
            (buf, [Println [AStr "Error reading from dca file2 :"; AErr e]],
             Returned (Some e))
        | exist _ (inl (IntBuf, rest')) Hpay =>
            Load_loop rest' (buf ++ [IntBuf]) } } }.
Proof.
  (* the two reads took at least the two bytes of the prefix *)
  unfold Read_int16, Read_bytes, ReadFull in *.
  destruct (Nat.ltb_spec (length file) 2); [discriminate|].
  injection Hlen as _ <-.
  destruct (Nat.ltb_spec (length (drop 2 file)) (Z.to_nat opuslen)); [discriminate|].
  injection Hpay as _ <-.
  rewrite !length_drop. lia.
Qed.

(** [vm.Load()]: the memo after the call, the lines the call prints on the
    console and how the call ended. *)
Definition Load (disk : Disk) (vm : VoiceMemo) : VoiceMemo * list Event * Outcome :=
  match disk !! (name vm +:+ ".dca") with
  | None =>
      (vm, [Println [AStr "Error opening dca file :"; AErr ErrNotExist]],
       Returned (Some ErrNotExist))
  | Some file =>
      let '(buf, log, out) := Load_loop file (buffer vm) in
      (mkVoiceMemo (name vm) buf, log, out)
  end.

(** ** Package [strings] *)

(** [strings.HasPrefix(s, prefix)]. *)
Definition HasPrefix (s pre : string) : bool := String.prefix pre s.

(** [strings.TrimPrefix(s, prefix)]. *)
Definition TrimPrefix (s pre : string) : string :=
  if String.prefix pre s
  then String.substring (String.length pre) (String.length s - String.length pre) s
  else s.

(** The table [asciiSpace] of package [strings], the white space among the
    ASCII characters: tab, line feed, vertical tab, form feed, carriage
    return and space. *)
Definition asciiSpace (ch : ascii) : bool :=
  let n := nat_of_ascii ch in
  ((9 <=? n) && (n <=? 13) || (n =? 32))%nat.

(** The number of bytes of the white space character at the head of [s],
    [0] when [s] does not start with one.  A Go string is a sequence of
    bytes, read as UTF-8; [unicode.IsSpace] holds of the ASCII white space
    and of U+0085 (C2 85), U+00A0 (C2 A0), U+1680 (E1 9A 80), U+2000 to
    U+200A (E2 80 80 to E2 80 8A), U+2028, U+2029 and U+202F (E2 80 A8,
    A9, AF), U+205F (E2 81 9F) and U+3000 (E3 80 80).  The lead bytes C2,
    E1, E2 and E3 are never the continuation of another character, so such
    a sequence is a white space character wherever it stands; a byte that
    is not part of a well-formed character is not white space. *)
Definition space_width (s : string) : nat :=
  (match s with
  | EmptyString => 0
  | String b0 rest =>
      if asciiSpace b0 then 1
      else
        let byte_at (i : nat) :=
          match String.get i rest with
          | Some b => nat_of_ascii b
          | None => 0
          end in
        let n0 := nat_of_ascii b0 in
        let n1 := byte_at 0 in
        let n2 := byte_at 1 in
        (if n0 =? 194 then (if (n1 =? 133) || (n1 =? 160) then 2 else 0)
         else if n0 =? 225 then (if (n1 =? 154) && (n2 =? 128) then 3 else 0)
         else if n0 =? 226 then
           (if (n1 =? 128) &&
               ((128 <=? n2) && (n2 <=? 138) || (n2 =? 168) || (n2 =? 169) || (n2 =? 175))
               || (n1 =? 129) && (n2 =? 159)
            then 3 else 0)
         else if n0 =? 227 then (if (n1 =? 128) && (n2 =? 128) then 3 else 0)
         else 0)
  end)%nat.

(** The loop of [strings.Fields]: [skip] bytes of a white space character
    are still to be passed over, [cur] is the field that is being read. *)
Fixpoint Fields_from (skip : nat) (cur : option string) (s : string) : list string :=
  match s with
  | EmptyString => match cur with Some w => [w] | None => [] end
  | String ch s' =>
      match skip with
      | S k => Fields_from k cur s'
      | O =>
          match space_width s with
          | S k =>
              match cur with
              | Some w => w :: Fields_from k None s'
              | None => Fields_from k None s'
              end
          | O =>
              Fields_from 0 (Some (default EmptyString cur +:+ String ch EmptyString)) s'
          end
      end
  end.

(** [strings.Fields(s)]: the maximal runs of characters that are not white
    space in the sense of [unicode.IsSpace]. *)
Definition Fields (s : string) : list string := Fields_from 0 None s.

(** [strings.Split(s, ".")[0]]: the part of [s] before its first dot. *)
Fixpoint Split_dot_0 (s : string) : string :=
  match s with
  | EmptyString => EmptyString
  | String ch s' =>
      if Ascii.eqb ch "."%char then EmptyString else String ch (Split_dot_0 s')
  end.

(** ** Package [discordgo]

    The parts of the chat library the handlers use.  What the library
    answers is part of the value: the [Session] knows the channels and
    guilds of its state cache and what joining a voice channel returns; a
    [VoiceConnection] says how many more frames its sender goroutine will
    still receive from [OpusSend]. *)
Module discordgo.

Record VoiceConnection : Type := mkVoiceConnection {
  VC_GuildID : string;
  VC_ChannelID : string;
  (* [None]: every send on [OpusSend] completes.  [Some n]: the next [n]
     sends complete, after that nothing receives from the channel any
     more and a send never completes (the connection is gone). *)
  VC_OpusCredit : option nat
}.

Record VoiceState : Type := mkVoiceState {
  VS_UserID : string;
  VS_ChannelID : string
}.

Record Guild : Type := mkGuild {
  Guild_ID : string;
  Guild_Name : string;
  Guild_VoiceStates : list VoiceState
}.

Record Channel : Type := mkChannel {
  Channel_ID : string;
  Channel_GuildID : string
}.

Record MessageAttachment : Type := mkAttachment {
  Att_URL : string;
  Att_Filename : string
}.

Record MessageCreate : Type := mkMessage {
  Author_ID : string;
  Content : string;
  ChannelID : string;
  Attachments : list MessageAttachment
}.

Record Session : Type := mkSession {
  State_User_ID : string;
  State_Channel : string -> option Channel;
  State_Guild : string -> option Guild;
  ChannelVoiceJoin : string -> string -> VoiceConnection + error;
  ChannelMessageSendEmbed_err : option error
}.

End discordgo.
Import discordgo.

(** ** How a handler ends *)

(** How a handler's goroutine ends: it returns, it panics, or it stays
    blocked in a channel send for ever. *)
Inductive Ending : Type :=
| Done
| Panic (msg : string)
| Blocks.

(** ** Guild sessions and the play queue *)

(** A buffered channel [make(chan T, cap)] with its queued elements, the
    oldest first. *)
Record Chan (T : Type) : Type := mkChan {
  chan_cap : nat;
  chan_buf : list T
}.
Arguments mkChan {T} _ _.
Arguments chan_cap {T} _.
Arguments chan_buf {T} _.

Record GuildSession : Type := mkGuildSession {
  ID : string;
  GuildName : string;
  VoiceConnection : discordgo.VoiceConnection;
  PlayQueue : Chan VoiceMemo;
  IsVoicePlaying : bool
}.

(** [gs.Enqueue(voiceMemo)]: a [select] with a send case and a [default].
    The send is chosen exactly when the buffer has room (no goroutine ever
    waits in a receive on [PlayQueue]: the drain loop receives inside a
    [select] with a [default]). *)
Definition Enqueue (gs : GuildSession) (voiceMemo : VoiceMemo)
  : GuildSession * list Event :=
  let q := PlayQueue gs in
  if (length (chan_buf q) <? chan_cap q)%nat
  then (mkGuildSession (ID gs) (GuildName gs) (VoiceConnection gs)
          (mkChan (chan_cap q) (chan_buf q ++ [voiceMemo])) (IsVoicePlaying gs),
        [])
  else (gs,
        [Println [AStr "Queue is currently full. Try again later. Queue count: ";
                  AInt (Z.of_nat (length (chan_buf q)))]]).

(** A caller that enqueues the clips one after the other, nothing being
    dequeued in between; the console lines are collected. *)
Definition Enqueue_all (gs : GuildSession) (clips : list VoiceMemo)
  : GuildSession * list Event :=
  foldl (fun acc voiceMemo =>
           let '(gs', tr) := Enqueue acc.1 voiceMemo in (gs', acc.2 ++ tr))
        (gs, []) clips.

(** [for _, buff := range dequeued.buffer { vc.OpusSend <- buff }]. *)
Fixpoint send_buffer (vc : discordgo.VoiceConnection) (frames : list (list byte))
  : discordgo.VoiceConnection * list Event * Ending :=
  match frames with
  | [] => (vc, [], Done)
  | buff :: frames' =>
      match VC_OpusCredit vc with
      | Some O => (vc, [], Blocks)
      | credit =>
          let vc' := mkVoiceConnection (VC_GuildID vc) (VC_ChannelID vc)
                       (Nat.pred <$> credit) in
          let '(vc'', tr, e) := send_buffer vc' frames' in
          (vc'', OpusSend (VC_GuildID vc) buff :: tr, e)
      end
  end.

(** The [for { select { ... } }] loop of [PlayFromQueue], run by one
    goroutine while no other goroutine touches the queue: the receive case
    is chosen while the buffer holds a memo, the [default] case when it is
    empty.  The result is the connection, what is left in the queue, the
    trace and how the loop ended. *)
Fixpoint drain (vc : discordgo.VoiceConnection) (queue : list VoiceMemo)
  : discordgo.VoiceConnection * list VoiceMemo * list Event * Ending :=
  match queue with
  | [] => (vc, [], [], Done)
  | dequeued :: queue' =>
      match send_buffer vc (buffer dequeued) with
      | (vc', tr, Done) =>
          let '(vc'', rest, tr', e) := drain vc' queue' in
          (vc'', rest, tr ++ Sleep 100 :: tr', e)
      | (vc', tr, e) => (vc', queue', tr, e)
      end
  end.

(** [gs.PlayFromQueue()].  The flag is read with [Load] and written with
    [Store].  On the [default] case the deferred [vc.Speaking(false)] runs
    after [Store(false)]. *)
Definition PlayFromQueue (gs : GuildSession) : GuildSession * list Event * Ending :=
  if IsVoicePlaying gs
  then (gs, [Println [AStr "Your voice memo is being added to the queue."]], Done)
  else
    let vc := VoiceConnection gs in
    let g := VC_GuildID vc in
    let '(vc', rest, tr, e) := drain vc (chan_buf (PlayQueue gs)) in
    let q' := mkChan (chan_cap (PlayQueue gs)) rest in
    match e with
    | Done =>
        (mkGuildSession (ID gs) (GuildName gs) vc' q' false,
         Speaking g true :: tr ++ [Speaking g false], Done)
    | _ =>
        (mkGuildSession (ID gs) (GuildName gs) vc' q' true,
         Speaking g true :: tr, e)
    end.

(** The frames a trace puts on [vc.OpusSend], in order. *)
Definition frames_of (tr : list Event) : list (list byte) :=
  omap (fun ev => match ev with OpusSend _ frame => Some frame | _ => None end) tr.

(** [gs.Disconnect()]. *)
Definition Disconnect (gs : GuildSession) : list Event :=
  [VoiceDisconnect (VC_GuildID (VoiceConnection gs))].

(** ** The clip catalog *)

Record VoiceMemoManager : Type := mkVoiceMemoManager {
  Store : gmap string VoiceMemo
}.

(** [NewVoiceMemoManager()]: one entry with an empty buffer for every file
    name that [os.ReadDir] lists, under the name before the first dot.
    [None] for the disk is a directory that cannot be read. *)
Definition NewVoiceMemoManager (disk : option Disk)
  : (VoiceMemoManager + error) * list Event :=
  match disk with
  | None => (inr ErrNotExist, [Println [AErr ErrNotExist]])
  | Some d =>
      let files := (map_to_list d).*1 in
      (inl (mkVoiceMemoManager
              (foldl (fun voiceMemoMap f =>
                        let name := Split_dot_0 f in
                        <[name := mkVoiceMemo name []]> voiceMemoMap)
                     ∅ files)),
       [])
  end.

(** The console lines of the [Load] calls of a [range] over these memos, up
    to the first call that panics. *)
Fixpoint Load_range_log (disk : Disk) (memos : list VoiceMemo) : list Event :=
  match memos with
  | [] => []
  | vm :: memos' =>
      let r := Load disk vm in
      match r.2 with
      | Panicked _ => r.1.2
      | Returned _ => r.1.2 ++ Load_range_log disk memos'
      end
  end.

(** [m.LoadAll()]: [Load] on every memo of the store; what [Load] returns
    is dropped and [LoadAll] returns [nil].  A panic of one [Load] is a
    panic of [LoadAll].  Go ranges over a map in an order that is not
    specified; the console lines are given here in the order of
    [map_to_list], and no statement below depends on that order. *)
Definition LoadAll (disk : Disk) (m : VoiceMemoManager)
  : VoiceMemoManager * list Event * Outcome :=
  let loaded := Load disk <$> Store m in
  let log := Load_range_log disk (map_to_list (Store m)).*2 in
  match List.find (fun r => match r.2 with Panicked _ => true | _ => false end)
                  (map_to_list loaded).*2 with
  | Some r => (mkVoiceMemoManager ((fun r => r.1.1) <$> loaded), log, r.2)
  | None => (mkVoiceMemoManager ((fun r => r.1.1) <$> loaded), log, Returned None)
  end.

(** [m.Get(fileName)]: [None] is the [nil] pointer. *)
Definition Get (m : VoiceMemoManager) (fileName : string) : option VoiceMemo :=
  Store m !! fileName.

(** ** The bot and its command handlers *)

Record Bot : Type := mkBot {
  GuildSessions : gmap string GuildSession;
  Manager : VoiceMemoManager        (* the field [VoiceMemoManager] *)
}.

Definition NewBot (am : VoiceMemoManager) : Bot := mkBot ∅ am.

Definition set_session (b : Bot) (id : string) (gs : GuildSession) : Bot :=
  mkBot (<[id := gs]> (GuildSessions b)) (Manager b).

(** The [for _, vs := range g.VoiceStates] loop of [HandleJoin]; [None]
    when the loop ends without a [return]. *)
Fixpoint join_voice (s : Session) (g : Guild) (c : Channel) (m : MessageCreate)
    (states : list VoiceState) (b : Bot) : option (Bot * list Event) :=
  match states with
  | [] => None
  | vs :: states' =>
      if String.eqb (VS_UserID vs) (Author_ID m)
      then
        match ChannelVoiceJoin s (Guild_ID g) (VS_ChannelID vs) with
        | inr err =>
            Some (b, [VoiceJoin (Guild_ID g) (VS_ChannelID vs);
                      Println [AStr "Error joining voice channel:"; AErr err]])
        | inl vc =>
            Some (set_session b (Guild_ID g)
                    (mkGuildSession (Guild_ID g) (Guild_Name g) vc
                       (mkChan 10 []) false),
                  [VoiceJoin (Guild_ID g) (VS_ChannelID vs);
                   Println [AStr "Creating new Guild session for "; AStr (Guild_Name g)];
                   ChannelMessageSend (Channel_ID c)
                     ("Hello " +:+ Guild_Name g +:+ "!")])
        end
      else join_voice s g c m states' b
  end.

(** The sender's voice presence in the guild: the first voice state of
    the guild that carries the sender's user id. *)
Definition voice_state_of (g : Guild) (m : MessageCreate) : option VoiceState :=
  List.find (fun vs => String.eqb (VS_UserID vs) (Author_ID m)) (Guild_VoiceStates g).

(** [b.HandleJoin(s, g, c, m)]. *)
Definition HandleJoin (s : Session) (g : Guild) (c : Channel) (m : MessageCreate)
    (b : Bot) : Bot * list Event :=
  match GuildSessions b !! Guild_ID g with
  | Some _ =>
      (b, [Println [AStr "Already joined a voice channel in "; AStr (Guild_Name g)];
           ChannelMessageSend (Channel_ID c)
             ("I have already joined a voice channel in " +:+ Guild_Name g)])
  | None =>
      let attempt := Println [AStr "Attempting to join voice channel in ";
                              AStr (Guild_Name g)] in
      match join_voice s g c m (Guild_VoiceStates g) b with
      | Some (b', tr) => (b', attempt :: tr)
      | None =>
          (b, [attempt;
               ChannelMessageSend (Channel_ID c)
                 "You must join a voice channel first."])
      end
  end.

(** [b.HandleLeave(s, g)]. *)
Definition HandleLeave (s : Session) (g : Guild) (b : Bot) : Bot * list Event :=
  match GuildSessions b !! Guild_ID g with
  | None => (b, [Println [AStr "Error finding guild session."]])
  | Some gs =>
      (mkBot (delete (Guild_ID g) (GuildSessions b)) (Manager b), Disconnect gs)
  end.

(** [b.HandlePlay(s, g, c, fileName)].  The session is reached through a
    pointer, so what [Enqueue] and [PlayFromQueue] do to it is seen in the
    registry. *)
Definition HandlePlay (s : Session) (g : Guild) (c : Channel) (fileName : string)
    (b : Bot) : Bot * list Event * Ending :=
  match GuildSessions b !! Guild_ID g with
  | None => (b, [Println [AStr "Error finding guild session."]], Done)
  | Some gs =>
      match Get (Manager b) fileName with
      | None =>
          (b, [Println [AStr "Cannot find "; AStr fileName];
               ChannelMessageSend (Channel_ID c) ("Cannot find " +:+ fileName)],
           Done)
      | Some voiceMemo =>
          let '(gs1, tr1) := Enqueue gs voiceMemo in
          let '(gs2, tr2, e) := PlayFromQueue gs1 in
          (set_session b (Guild_ID g) gs2, tr1 ++ tr2, e)
      end
  end.

(** [b.HandleList(s, c)]: one embed field per memo of the store, in the
    order the map is ranged over. *)
Definition HandleList (s : Session) (c : Channel) (b : Bot) : list Event :=
  let fields := (fun kv => "-" +:+ name kv.2) <$> map_to_list (Store (Manager b)) in
  SendEmbed (Channel_ID c) "List of all voice memos" fields ::
  match ChannelMessageSendEmbed_err s with
  | Some err => [Println [AErr err]]
  | None => []
  end.

(** What the world outside the program does during one upload. *)
Record UploadEnv : Type := mkUploadEnv {
  http_Get : string -> list byte + error;   (* the body behind a URL *)
  os_Create_ok : string -> bool;            (* can this file be created *)
  io_Copy_ok : bool;                        (* does the download complete *)
  (* what [ffmpeg -i file ... | dca] writes for a file with these bytes *)
  transcode : list byte -> list byte
}.

(** [b.HandleUpload(s, m)] on the directory [voicememo_files/].  The
    deferred [os.Remove] of the downloaded file runs when the function
    returns or panics, once it has been registered. *)
Definition HandleUpload (env : UploadEnv) (s : Session) (m : MessageCreate)
    (b : Bot) (disk : Disk) : Bot * Disk * list Event * Ending :=
  match Attachments m with
  | [] =>
      (b, disk, [ChannelMessageSend (ChannelID m) "Please attach an audio file."], Done)
  | att :: _ =>
      match http_Get env (Att_URL att) with
      | inr _ => (b, disk, [], Done)
      | inl body =>
          let fileName := Att_Filename att in
          if negb (os_Create_ok env fileName) then (b, disk, [], Done)
          else
            let disk1 := <[fileName := []]> disk in
            if negb (io_Copy_ok env) then (b, disk1, [], Done)
            else
              let disk2 := <[fileName := body]> disk1 in
              let name := Split_dot_0 fileName in
              if negb (os_Create_ok env (name +:+ ".dca")) then (b, disk2, [], Done)
              else
                let disk3 := <[name +:+ ".dca" := []]> disk2 in
                let disk4 :=
                  <[name +:+ ".dca" := transcode env (default [] (disk3 !! fileName))]>
                    disk3 in
                let '(newVoiceMemo, log, out) := Load disk4 (mkVoiceMemo name []) in
                match out with
                | Panicked msg => (b, delete fileName disk4, log, Panic msg)
                | Returned _ =>
                    (mkBot (GuildSessions b)
                       (mkVoiceMemoManager
                          (<[name := newVoiceMemo]> (Store (Manager b)))),
                     delete fileName disk4,
                     log ++
                     [ChannelMessageSend (ChannelID m)
                        ("Successfully uploaded " +:+ name)],
                     Done)
                end
      end
  end.

(** The disk of [HandleUpload] after the download and the conversion, when
    every step of them went through. *)
Definition uploaded_disk (env : UploadEnv) (fileName : string) (body : list byte)
    (disk : Disk) : Disk :=
  let disk2 := <[fileName := body]> (<[fileName := []]> disk) in
  let disk3 := <[Split_dot_0 fileName +:+ ".dca" := []]> disk2 in
  <[Split_dot_0 fileName +:+ ".dca" := transcode env (default [] (disk3 !! fileName))]> disk3.

(** ** The command dispatcher *)

(** [b.CommandCenter(s, m)].  Indexing [args] out of range panics. *)
Definition CommandCenter (env : UploadEnv) (s : Session) (m : MessageCreate)
    (b : Bot) (disk : Disk) : Bot * Disk * list Event * Ending :=
  if String.eqb (Author_ID m) (State_User_ID s) then (b, disk, [], Done)
  else
    let command := Content m in
    let hello := Println [AStr "Message: "; AStr command] in
    match State_Channel s (ChannelID m) with
    | None => (b, disk, [hello], Done)
    | Some c =>
        match State_Guild s (Channel_GuildID c) with
        | None => (b, disk, [hello], Done)
        | Some g =>
            if HasPrefix (Content m) "!" then
              let args := Fields command in
              match args !! 0%nat with
              | None =>
                  (b, disk, [hello], Panic "index out of range [0] with length 0")
              | Some arg0 =>
                  let command := TrimPrefix arg0 "!" in
                  if String.eqb command "join" then
                    let '(b', tr) := HandleJoin s g c m b in
                    (b', disk, hello :: tr, Done)
                  else if String.eqb command "leave" then
                    let '(b', tr) := HandleLeave s g b in
                    (b', disk, hello :: tr, Done)
                  else if String.eqb command "play" then
                    match args !! 1%nat with
                    | None =>
                        (b, disk, [hello], Panic "index out of range [1] with length 1")
                    | Some arg1 =>
                        let '(b', tr, e) := HandlePlay s g c (TrimPrefix arg1 "-") b in
                        (b', disk, hello :: tr, e)
                    end
                  else if String.eqb command "list" then
                    (b, disk, hello :: HandleList s c b, Done)
                  else if String.eqb command "upload" then
                    let '(b', disk', tr, e) := HandleUpload env s m b disk in
                    (b', disk', hello :: tr, e)
                  else if String.eqb command "record" then
                    (b, disk, [hello], Done)
                  else
                    (b, disk,
                     [hello; ChannelMessageSend (Channel_ID c)
                               "Unrecognizable command, dummy..."],
                     Done)
              end
            else (b, disk, [hello], Done)
        end
    end.

(** ** Startup: [main] *)

(** How [main] goes on after its initialisation: it serves commands with
    the bot it has made, it returns, or it dies of a panic. *)
Inductive Startup : Type :=
| Serving (b : Bot)
| Exited
| Crashed (msg : string).

(** [main()] up to the point where it waits for a signal.  What
    [discordgo.New] and [session.Open] return is given; the result of
    [LoadAll] is dropped, as in the source, and its console lines are in
    the trace. *)
Definition main (discordgo_New_err session_Open_err : option error)
    (disk : option Disk) : Startup * list Event :=
  match discordgo_New_err with
  | Some err =>
      (Exited, [Println [AStr "Error creating a Discord session: "; AErr err]])
  | None =>
      match NewVoiceMemoManager disk with
      | (inr err, tr) =>
          (Exited,
           tr ++ [Println [AStr "Error creating Voice Memo Manager for Discord session: ";
                           AErr err]])
      | (inl voiceMemoManager, tr) =>
          match LoadAll (default ∅ disk) voiceMemoManager with
          | (_, lines, Panicked msg) => (Crashed msg, tr ++ lines)
          | (loaded, lines, Returned _) =>
              let log := tr ++ lines in
              let bot := NewBot loaded in
              match session_Open_err with
              | Some err =>
                  (Exited, log ++ [Println [AStr "Error opening Discord session: "; AErr err]])
              | None =>
                  (Serving bot,
                   log ++ [Println [AStr "Voice memo bot is now running.  Press CTRL-C to exit."]])
              end
          end
      end
  end.

(** ** Invariants of the catalog and of the registry *)

(** Every clip of the catalog is stored under its own name, and the name
    has no dot. *)
Definition catalog_named (m : VoiceMemoManager) : Prop :=
  forall k vm, Store m !! k = Some vm -> name vm = k /\ Split_dot_0 k = k.

(** Every session of the registry is stored under its own id and has a
    queue of capacity 10 that holds at most 10 clips. *)
Definition registry_bounded (b : Bot) : Prop :=
  forall k gs, GuildSessions b !! k = Some gs ->
    ID gs = k /\ chan_cap (PlayQueue gs) = 10%nat /\
    (length (chan_buf (PlayQueue gs)) <= 10)%nat.

(** Every session of the registry is settled: when it is not playing its
    queue is empty, and when it is playing its connection has stopped
    receiving frames. *)
Definition sessions_settled (b : Bot) : Prop :=
  forall k gs, GuildSessions b !! k = Some gs ->
    (IsVoicePlaying gs = false -> chan_buf (PlayQueue gs) = []) /\
    (IsVoicePlaying gs = true -> VC_OpusCredit (VoiceConnection gs) = Some 0%nat).

(** The chat messages of a trace, with their channels. *)
Definition messages_of (tr : list Event) : list (string * string) :=
  omap (fun ev => match ev with
                  | ChannelMessageSend channel content => Some (channel, content)
                  | _ => None
                  end) tr.

(** The trace of a drain that sends every frame of every clip of the
    queue: one speaking period around all clips, the frames of each clip
    in order, a pause of 100 ms after each clip. *)
Definition drain_trace (guild : string) (queue : list VoiceMemo) : list Event :=
  Speaking guild true ::
  concat ((fun vm => (OpusSend guild <$> buffer vm) ++ [Sleep 100]) <$> queue) ++
  [Speaking guild false].

(** The states of the program, one command after the other: the bot that
    [main] made from the directory [disk0], and the bot and the directory
    after any further command. *)
Inductive reachable (disk0 : Disk) : Bot -> Disk -> Prop :=
| reachable_main (ne oe : option error) (b : Bot) (tr : list Event) :
    main ne oe (Some disk0) = (Serving b, tr) ->
    reachable disk0 b disk0
| reachable_command (b : Bot) (disk : Disk) (env : UploadEnv) (s : Session)
    (m : MessageCreate) :
    reachable disk0 b disk ->
    reachable disk0 (CommandCenter env s m b disk).1.1.1
                    (CommandCenter env s m b disk).1.1.2.

(** ** Concurrent triggers of [PlayFromQueue]

    The library runs every handler in a goroutine of its own, so several
    [PlayFromQueue] calls can run on one session at once.  The model below
    interleaves them: a goroutine is a program counter in the body of
    [PlayFromQueue], a step executes one statement on the shared session,
    and a schedule names the goroutine that moves next.  The operations of
    [atomic.Bool] and of the channel are atomic steps. *)
Module Race.

(** The session as the goroutines share it. *)
Record Shared : Type := mkShared {
  flag : bool;                   (* gs.IsVoicePlaying *)
  queue : list VoiceMemo;        (* the buffer of gs.PlayQueue *)
  sent : list (list byte)        (* the frames put on vc.OpusSend so far *)
}.

Inductive PC : Type :=
| AtLoad                            (* before [gs.IsVoicePlaying.Load()] *)
| AtStore                           (* read [false]; before [Store(true)] *)
| AtSpeaking                        (* before [vc.Speaking(true)] *)
| AtSelect                          (* at the [select] of the loop *)
| AtSend (frames : list (list byte)) (* in the [range]: frames still to send *)
| AtSleep                           (* before [time.Sleep] *)
| AtClear                           (* [default] chosen; before [Store(false)] *)
| Finished.                         (* the call has returned *)

(** One statement of [PlayFromQueue] as the source has it: the flag is
    read by [Load] and set by a later [Store]. *)
Definition step (sh : Shared) (pc : PC) : Shared * PC :=
  match pc with
  | AtLoad => if flag sh then (sh, Finished) else (sh, AtStore)
  | AtStore => (mkShared true (queue sh) (sent sh), AtSpeaking)
  | AtSpeaking => (sh, AtSelect)
  | AtSelect =>
      match queue sh with
      | dequeued :: rest => (mkShared (flag sh) rest (sent sh), AtSend (buffer dequeued))
      | [] => (sh, AtClear)
      end
  | AtSend (buff :: frames) =>
      (mkShared (flag sh) (queue sh) (sent sh ++ [buff]), AtSend frames)
  | AtSend [] => (sh, AtSleep)
  | AtSleep => (sh, AtSelect)
  | AtClear => (mkShared false (queue sh) (sent sh), Finished)
  | Finished => (sh, Finished)
  end.

(** The same body with the guard the specification asks for: the flag
    goes from [false] to [true] in one atomic compare-and-set, and the
    caller that finds it set returns. *)
Definition step_compare_and_set (sh : Shared) (pc : PC) : Shared * PC :=
  match pc with
  | AtLoad =>
      if flag sh then (sh, Finished)
      else (mkShared true (queue sh) (sent sh), AtSpeaking)
  | _ => step sh pc
  end.

Record Config : Type := mkConfig {
  shared : Shared;
  goroutines : list PC
}.

Section Schedules.
Variable stmt : Shared -> PC -> Shared * PC.

(** Goroutine [i] executes its next statement. *)
Definition move (cfg : Config) (i : nat) : Config :=
  match goroutines cfg !! i with
  | None => cfg
  | Some pc =>
      let '(sh', pc') := stmt (shared cfg) pc in
      mkConfig sh' (<[i := pc']> (goroutines cfg))
  end.

Definition run (cfg : Config) (schedule : list nat) : Config :=
  foldl move cfg schedule.
End Schedules.

(** A goroutine is in the drain role from its way past the guard until
    it has cleared the flag. *)
Definition draining (pc : PC) : bool :=
  match pc with
  | AtSpeaking | AtSelect | AtSend _ | AtSleep | AtClear => true
  | AtLoad | AtStore | Finished => false
  end.

Definition weight (pc : PC) : nat := if draining pc then 1 else 0.

Definition count (l : list PC) : nat :=
  length (filter (fun pc => draining pc = true) l).

(** The counter of the specification: how many goroutines are in the
    drain role. *)
Definition drainers (cfg : Config) : nat := count (goroutines cfg).

(** The invariant of the compare-and-set guard: nobody waits between the
    read and the write of the flag, and the flag is set exactly when one
    goroutine is in the drain role. *)
Definition single_flight (cfg : Config) : Prop :=
  Forall (fun pc => pc <> AtStore) (goroutines cfg) /\
  drainers cfg = if flag (shared cfg) then 1%nat else 0%nat.

(** [n] triggers that have just been called on an idle session. *)
Definition triggers (n : nat) (queue : list VoiceMemo) : Config :=
  mkConfig (mkShared false queue []) (replicate n AtLoad).

(** The frames a goroutine has taken from the queue and not sent yet. *)
Definition in_flight (pc : PC) : list (list byte) :=
  match pc with
  | AtSend frames => frames
  | _ => []
  end.

(** Every frame of a configuration: sent, in flight or still queued. *)
Definition all_frames (cfg : Config) : list (list byte) :=
  sent (shared cfg) ++
  concat (in_flight <$> goroutines cfg) ++
  concat (buffer <$> queue (shared cfg)).

End Race.

(** ** Earlier revisions of [HandleJoin]

    The repository holds two earlier revisions of the program.  Their
    sessions have no queue and no flag; only what [HandleJoin] does to the
    registry is modelled, with the session of the current revision
    standing for the entry. *)
Module Earlier.

Definition placeholder (g : Guild) : GuildSession :=
  mkGuildSession (Guild_ID g) (Guild_Name g)
    (mkVoiceConnection (Guild_ID g) "" None) (mkChan 0 []) false.

(** First revision: the session is stored before the sender is looked
    up among the voice states. *)
Definition HandleJoin_first (s : Session) (g : Guild) (m : MessageCreate)
    (b : Bot) : Bot :=
  match GuildSessions b !! Guild_ID g with
  | Some _ => b
  | None => set_session b (Guild_ID g) (placeholder g)
  end.

(** Second revision: the session is stored once the sender is found,
    before [ChannelVoiceJoin] is called. *)
Definition HandleJoin_second (s : Session) (g : Guild) (m : MessageCreate)
    (b : Bot) : Bot :=
  match GuildSessions b !! Guild_ID g with
  | Some _ => b
  | None =>
      match List.find (fun vs => String.eqb (VS_UserID vs) (Author_ID m))
                      (Guild_VoiceStates g) with
      | Some _ => set_session b (Guild_ID g) (placeholder g)
      | None => b
      end
  end.

End Earlier.

(** ** A small world for the examples

    One guild with one user in a voice channel, one text channel, and a
    chat session that knows both and can make the voice connection. *)
Module Demo.

Definition guild : Guild := mkGuild "g" "Guild" [mkVoiceState "u1" "v1"].
Definition channel : Channel := mkChannel "c" "g".

Definition session : Session :=
  mkSession "bot"
    (fun id => if String.eqb id "c" then Some channel else None)
    (fun id => if String.eqb id "g" then Some guild else None)
    (fun g ch => inl (mkVoiceConnection g ch None))
    None.

(** The same session when the voice connection is lost after one frame. *)
Definition session_lossy : Session :=
  mkSession "bot" (State_Channel session) (State_Guild session)
    (fun g ch => inl (mkVoiceConnection g ch (Some 1%nat))) None.

(** The same session when the voice connection cannot be made. *)
Definition session_offline : Session :=
  mkSession "bot" (State_Channel session) (State_Guild session)
    (fun _ _ => inr ErrNotExist) None.

Definition message (user content : string) : MessageCreate :=
  mkMessage user content "c" [].

Definition env : UploadEnv :=
  mkUploadEnv (fun _ => inl [x01; x02; x03]) (fun _ => true) true (fun bytes => bytes).

(** An upload message with one attachment. *)
Definition upload_message (fileName : string) : MessageCreate :=
  mkMessage "u1" "!upload" "c" [mkAttachment "http://files/clip" fileName].

(** A directory with one good clip and one whose second record is cut. *)
Definition disk : Disk :=
  <["good.dca" := [x01; x00; x41]]>
    (<["bad.dca" := [x01; x00; x41; x05; x00; x43]]> ∅).

(** The same directory with one more file, whose length prefix has the
    high bit set. *)
Definition disk_loud : Disk := <["loud.dca" := [x00; x80]]> disk.

Definition clip_a : VoiceMemo := mkVoiceMemo "a" [[x41]; [x42]].
Definition clip_b : VoiceMemo := mkVoiceMemo "b" [[x43]].

Definition catalog : VoiceMemoManager :=
  mkVoiceMemoManager (<["a" := clip_a]> (<["b" := clip_b]> ∅)).

Definition bot : Bot := NewBot catalog.

(** The bot after user [u1] has sent [!join]. *)
Definition bot_joined : Bot := (HandleJoin session guild channel (message "u1" "!join") bot).1.

End Demo.

(** ** The container format

    The program has no encoder: the files are written by the external [dca]
    tool.  The next definitions spell the container out as the
    specification gives it, repeated records of a two-byte little-endian
    frame length followed by that many payload bytes, so that the decoder
    can be compared with it. *)

Definition byte_of_Z (z : Z) : byte :=
  default x00 (Byte.of_N (Z.to_N z)).

(** [binary.LittleEndian.PutUint16]: low byte first. *)
Definition PutUint16 (n : Z) : list byte :=
  [byte_of_Z (n mod 256); byte_of_Z ((n / 256) mod 256)].

Definition encode_record (frame : list byte) : list byte :=
  PutUint16 (Z.of_nat (length frame)) ++ frame.

Definition encode (frames : list (list byte)) : list byte :=
  concat (map encode_record frames).

(** A record is well formed when its length fits the two-byte prefix. *)
Definition well_formed (frames : list (list byte)) : Prop :=
  Forall (fun f => Z.of_nat (length f) <= 65535) frames.

(** The lengths that the decoder's [int16] can hold. *)
Definition fits_int16 (frames : list (list byte)) : Prop :=
  Forall (fun f => Z.of_nat (length f) <= 32767) frames.

(** What one outcome of the loop says about the file, given the frames
    that were appended. *)
Definition explains (file : list byte) (frames : list (list byte)) (out : Outcome) : Prop :=
  match out with
  | Returned None =>
      exists tail, file = encode frames ++ tail /\ (length tail <= 1)%nat
  | Returned (Some e) =>
      exists b0 b1 partial,
        file = encode frames ++ b0 :: b1 :: partial /\
        0 <= int16 (Uint16 [b0; b1]) /\
        Z.of_nat (length partial) < int16 (Uint16 [b0; b1]) /\
        e = match partial with [] => EOF | _ :: _ => ErrUnexpectedEOF end
  | Panicked msg =>
      msg = "makeslice: len out of range" /\
      exists b0 b1 rest,
        file = encode frames ++ b0 :: b1 :: rest /\ int16 (Uint16 [b0; b1]) < 0
  end.

(** ** Facts about the codec *)

Lemma byte_Z_range b : 0 <= byte_Z b < 256.
Proof.
  unfold byte_Z. pose proof (Byte.to_N_bounded b). lia.
Qed.

Lemma byte_Z_of_Z z : 0 <= z < 256 -> byte_Z (byte_of_Z z) = z.
Proof.
  intros Hz. unfold byte_Z, byte_of_Z.
  destruct (Byte.of_N (Z.to_N z)) as [b|] eqn:E; simpl.
  - apply Byte.to_of_N in E. rewrite E. lia.
  - apply Byte.of_N_None_iff in E. lia.
Qed.

Lemma lor_shiftl_8 a b :
  0 <= a < 256 -> 0 <= b -> Z.lor a (Z.shiftl b 8) = a + 256 * b.
Proof.
  intros Ha Hb.
  assert (Hland : Z.land a (Z.shiftl b 8) = 0).
  { apply Z.bits_inj'. intros i Hi.
    rewrite Z.land_spec, Z.bits_0.
    destruct (Z.lt_ge_cases i 8) as [Hlt|Hge].
    - rewrite (Z.shiftl_spec_low b 8 i) by lia. apply andb_false_r.
    - destruct (Z.eq_dec a 0) as [->|Hne]; [now rewrite Z.bits_0|].
      rewrite (Z.bits_above_log2 a i); [reflexivity|lia|].
      apply Z.log2_lt_pow2; [lia|].
      apply Z.lt_le_trans with (2 ^ 8); [lia|].
      apply Z.pow_le_mono_r; lia. }
  rewrite <- Z.lxor_lor by exact Hland.
  rewrite <- Z.add_nocarry_lxor by exact Hland.
  rewrite Z.shiftl_mul_pow2 by lia. lia.
Qed.

Lemma Uint16_bytes b0 b1 rest :
  Uint16 (b0 :: b1 :: rest) = byte_Z b0 + 256 * byte_Z b1.
Proof.
  unfold Uint16. pose proof (byte_Z_range b0). pose proof (byte_Z_range b1).
  apply lor_shiftl_8; lia.
Qed.

Lemma Uint16_PutUint16 n : 0 <= n < 65536 -> Uint16 (PutUint16 n) = n.
Proof.
  intros Hn. unfold PutUint16. rewrite Uint16_bytes.
  rewrite !byte_Z_of_Z.
  - rewrite (Z.mod_small (n / 256) 256).
    + pose proof (Z.div_mod n 256). lia.
    + split; [apply Z.div_pos; lia | apply Z.div_lt_upper_bound; lia].
  - apply Z.mod_pos_bound; lia.
  - apply Z.mod_pos_bound; lia.
Qed.

(** The loop, one iteration at a time. *)
Lemma Load_loop_step file buf :
  Load_loop file buf =
  match Read_int16 file with
  | inr EOF | inr ErrUnexpectedEOF => (buf, [], Returned None)
  | inr e =>
      (buf, [Println [AStr "Error reading from dca file1 :"; AErr e]], Returned (Some e))
  | inl (opuslen, rest) =>
      if opuslen <? 0 then (buf, [], Panicked "makeslice: len out of range")
      else match Read_bytes rest (Z.to_nat opuslen) with
           | inr e =>
               (buf, [Println [AStr "Error reading from dca file2 :"; AErr e]],
                Returned (Some e))
           | inl (IntBuf, rest') => Load_loop rest' (buf ++ [IntBuf])
           end
  end.
Proof.
  funelim (Load_loop file buf);
    repeat match goal with
      | H : Read_int16 ?f = _ |- context [Read_int16 ?f] => rewrite H
      | H : Read_bytes ?f ?n = _ |- context [Read_bytes ?f ?n] => rewrite H
      | H : (?z <? 0) = _ |- context [?z <? 0] => rewrite H
      end; reflexivity.
Qed.

(** Decoding one complete record appends its payload and goes on. *)
Lemma Load_loop_record frame rest buf :
  Z.of_nat (length frame) <= 32767 ->
  Load_loop (encode_record frame ++ rest) buf = Load_loop rest (buf ++ [frame]).
Proof.
  intros Hlen. rewrite Load_loop_step.
  unfold encode_record, Read_int16, ReadFull.
  set (n := Z.of_nat (length frame)) in *.
  assert (Hput : exists b0 b1, PutUint16 n = [b0; b1]) by (unfold PutUint16; eauto).
  destruct Hput as (b0 & b1 & Hput).
  assert (HU : Uint16 [b0; b1] = n) by (rewrite <- Hput; apply Uint16_PutUint16; lia).
  rewrite Hput. cbn [app length Nat.ltb Nat.leb firstn skipn].
  rewrite take_0, drop_0, HU. unfold int16.
  destruct (Z.ltb_spec n 32768); [|lia].
  destruct (Z.ltb_spec n 0); [lia|].
  unfold Read_bytes, ReadFull, n. rewrite Nat2Z.id.
  rewrite length_app.
  destruct (Nat.ltb_spec (length frame + length rest) (length frame)); [lia|].
  rewrite take_app_length, drop_app_length. reflexivity.
Qed.

Lemma Load_loop_encode frames rest buf :
  fits_int16 frames ->
  Load_loop (encode frames ++ rest) buf = Load_loop rest (buf ++ frames).
Proof.
  intros Hfit. revert buf.
  induction Hfit as [|f frames Hf _ IH]; intros buf.
  - simpl. now rewrite app_nil_r.
  - unfold encode. cbn [map concat]. rewrite <- app_assoc.
    rewrite Load_loop_record by exact Hf.
    fold (encode frames). rewrite IH, <- app_assoc. reflexivity.
Qed.

Lemma Load_loop_nil buf : Load_loop [] buf = (buf, [], Returned None).
Proof. rewrite Load_loop_step. reflexivity. Qed.

(** A length prefix with the high bit set is a negative [int16]. *)
Lemma Load_loop_negative_length b0 b1 rest buf :
  128 <= byte_Z b1 ->
  Load_loop (b0 :: b1 :: rest) buf = (buf, [], Panicked "makeslice: len out of range").
Proof.
  intros Hb. rewrite Load_loop_step.
  unfold Read_int16, ReadFull. cbn [length Nat.ltb Nat.leb take drop].
  rewrite Uint16_bytes. unfold int16.
  pose proof (byte_Z_range b0). pose proof (byte_Z_range b1).
  destruct (Z.ltb_spec (byte_Z b0 + 256 * byte_Z b1) 32768); [lia|].
  destruct (Z.ltb_spec (byte_Z b0 + 256 * byte_Z b1 - 65536) 0); [reflexivity|lia].
Qed.


Lemma Load_loop_encode_all frames buf :
  fits_int16 frames ->
  Load_loop (encode frames) buf = (buf ++ frames, [], Returned None).
Proof.
  intros Hfit. rewrite <- (app_nil_r (encode frames)).
  rewrite Load_loop_encode by exact Hfit. apply Load_loop_nil.
Qed.

Lemma Load_lookup disk vm file :
  disk !! (name vm +:+ ".dca") = Some file ->
  Load disk vm =
  (mkVoiceMemo (name vm) (Load_loop file (buffer vm)).1.1,
   (Load_loop file (buffer vm)).1.2, (Load_loop file (buffer vm)).2).
Proof.
  intros H. unfold Load. rewrite H. now destruct (Load_loop file (buffer vm)) as [[? ?] ?].
Qed.

(** ** The frame codec: claims C3, C4 and C5 *)

(** C3, as amended.  For every container built from records whose payload
    is at most 32767 bytes long (the lengths an [int16] prefix can hold),
    each a two-byte little-endian length followed by that many bytes,
    [Load] returns [nil] and exactly the payloads, as many and in file
    order; and encoding the decoded frames again and decoding the result
    gives the same frames. *)
Theorem Load_encode_roundtrip (disk : Disk) (nm : string) (frames : list (list byte)) :
  fits_int16 frames ->
  disk !! (nm +:+ ".dca") = Some (encode frames) ->
  let decoded := Load disk (mkVoiceMemo nm []) in
  decoded = (mkVoiceMemo nm frames, [], Returned None) /\
  length (buffer decoded.1.1) = length frames /\
  Load (<[nm +:+ ".dca" := encode (buffer decoded.1.1)]> disk) (mkVoiceMemo nm [])
  = decoded.
Proof.
  intros Hfit Hfile decoded.
  assert (Hdec : decoded = (mkVoiceMemo nm frames, [], Returned None)).
  { unfold decoded. rewrite (Load_lookup disk (mkVoiceMemo nm []) _ Hfile). cbn [name buffer].
    now rewrite Load_loop_encode_all. }
  rewrite Hdec. cbn [fst buffer]. repeat split.
  rewrite (Load_lookup _ (mkVoiceMemo nm []) (encode frames))
    by apply lookup_insert_eq.
  cbn [name buffer]. now rewrite Load_loop_encode_all.
Qed.

Lemma Load_encode_roundtrip_witness :
  let frames := [[x41; x42]; []; [x43]] in
  let disk : Disk := {["a.dca" := encode frames]} in
  Load disk (mkVoiceMemo "a" []) = (mkVoiceMemo "a" frames, [], Returned None).
Proof.
  intros frames disk.
  apply (Load_encode_roundtrip disk "a" frames).
  - unfold fits_int16, frames. repeat constructor; simpl; lia.
  - reflexivity.
Defined.

(** C3 as stated fails: a record of 32768 payload bytes is well formed for
    a two-byte length prefix, and [Load] panics on it instead of returning
    the frame. *)
Lemma Load_encode_roundtrip_counterexample :
  let frames := [replicate (Z.to_nat 32768) x00] in
  let disk : Disk := {["a.dca" := encode frames]} in
  well_formed frames /\
  Load disk (mkVoiceMemo "a" []) =
  (mkVoiceMemo "a" [], [], Panicked "makeslice: len out of range") /\
  Load disk (mkVoiceMemo "a" []) <> (mkVoiceMemo "a" frames, [], Returned None).
Proof.
  intros frames disk.
  assert (Hload : Load disk (mkVoiceMemo "a" []) =
                  (mkVoiceMemo "a" [], [], Panicked "makeslice: len out of range")).
  { rewrite (Load_lookup _ (mkVoiceMemo "a" []) (encode frames))
      by apply lookup_singleton_eq.
    cbn [name buffer]. unfold frames, encode, encode_record.
    cbn [map concat]. rewrite length_replicate.
    rewrite Z2Nat.id by lia.
    change (PutUint16 32768) with [x00; x80]. cbn [app].
    rewrite Load_loop_negative_length by (vm_compute; discriminate).
    reflexivity. }
  split; [|split].
  - constructor; [|constructor]. rewrite length_replicate. lia.
  - exact Hload.
  - rewrite Hload. discriminate.
Qed.




(** C5: [Load] is claimed to read the length prefix as unsigned and never
    to panic.  On the file [00 80] the prefix is read as the [int16]
    [-32768] and [make([]byte, opuslen)] panics. *)
Theorem Load_high_bit_panics :
  Load {["a.dca" := [x00; x80]]} (mkVoiceMemo "a" []) =
  (mkVoiceMemo "a" [], [], Panicked "makeslice: len out of range").
Proof.
  rewrite (Load_lookup _ (mkVoiceMemo "a" []) [x00; x80])
    by apply lookup_singleton_eq.
  cbn [name buffer].
  rewrite Load_loop_negative_length by (vm_compute; discriminate).
  reflexivity.
Qed.

(** ** The play queue: claim C2 *)

Lemma Enqueue_room gs vm :
  (length (chan_buf (PlayQueue gs)) < chan_cap (PlayQueue gs))%nat ->
  Enqueue gs vm =
  (mkGuildSession (ID gs) (GuildName gs) (VoiceConnection gs)
     (mkChan (chan_cap (PlayQueue gs)) (chan_buf (PlayQueue gs) ++ [vm]))
     (IsVoicePlaying gs), []).
Proof.
  intros H. unfold Enqueue.
  destruct (Nat.ltb_spec (length (chan_buf (PlayQueue gs))) (chan_cap (PlayQueue gs)));
    [reflexivity|lia].
Qed.

Lemma Enqueue_full gs vm :
  (chan_cap (PlayQueue gs) <= length (chan_buf (PlayQueue gs)))%nat ->
  Enqueue gs vm =
  (gs, [Println [AStr "Queue is currently full. Try again later. Queue count: ";
                 AInt (Z.of_nat (length (chan_buf (PlayQueue gs))))]]).
Proof.
  intros H. unfold Enqueue.
  destruct (Nat.ltb_spec (length (chan_buf (PlayQueue gs))) (chan_cap (PlayQueue gs)));
    [lia|reflexivity].
Qed.

(** [Enqueue] returns in either branch, and a queue within its capacity
    stays within it. *)
Lemma Enqueue_within_capacity gs vm :
  (length (chan_buf (PlayQueue gs)) <= chan_cap (PlayQueue gs))%nat ->
  (length (chan_buf (PlayQueue (Enqueue gs vm).1)) <= chan_cap (PlayQueue (Enqueue gs vm).1))%nat.
Proof.
  intros H. unfold Enqueue.
  destruct (Nat.ltb_spec (length (chan_buf (PlayQueue gs))) (chan_cap (PlayQueue gs)));
    cbn; [rewrite length_app; cbn; lia|exact H].
Qed.

Lemma Enqueue_all_snoc gs clips vm :
  Enqueue_all gs (clips ++ [vm]) =
  ((Enqueue (Enqueue_all gs clips).1 vm).1,
   (Enqueue_all gs clips).2 ++ (Enqueue (Enqueue_all gs clips).1 vm).2).
Proof.
  unfold Enqueue_all. rewrite foldl_app. cbn [foldl].
  now destruct (Enqueue _ vm).
Qed.

(** While the clips fit, they are all queued behind what was there, in the
    order of the calls, and nothing is printed. *)
Lemma Enqueue_all_room gs clips :
  (length (chan_buf (PlayQueue gs)) + length clips <= chan_cap (PlayQueue gs))%nat ->
  Enqueue_all gs clips =
  (mkGuildSession (ID gs) (GuildName gs) (VoiceConnection gs)
     (mkChan (chan_cap (PlayQueue gs)) (chan_buf (PlayQueue gs) ++ clips))
     (IsVoicePlaying gs), []).
Proof.
  induction clips as [|vm clips IH] using rev_ind; intros Hlen.
  - unfold Enqueue_all. cbn [foldl]. rewrite app_nil_r.
    destruct gs as [i n v [cap buf] p]. reflexivity.
  - rewrite length_app in Hlen. cbn [length] in Hlen.
    rewrite Enqueue_all_snoc, IH by lia. cbn [fst snd].
    rewrite Enqueue_room by (cbn; rewrite length_app; lia).
    cbn. now rewrite <- app_assoc.
Qed.

(** C2.  On the queue of a session as [HandleJoin] makes it (capacity 10,
    empty), ten [Enqueue] calls in a row keep all ten clips in the order
    of the calls; the eleventh call takes the [default] branch: it returns
    at once, leaves the ten entries as they are and reports the full queue
    on the console. *)
Theorem Enqueue_capacity (gs : GuildSession) (clips : list VoiceMemo)
    (extra : VoiceMemo) :
  PlayQueue gs = mkChan 10 [] ->
  length clips = 10%nat ->
  let gs10 := (Enqueue_all gs clips).1 in
  chan_buf (PlayQueue gs10) = clips /\
  (Enqueue_all gs clips).2 = [] /\
  Enqueue gs10 extra =
    (gs10, [Println [AStr "Queue is currently full. Try again later. Queue count: ";
                     AInt 10]]) /\
  Enqueue_all gs (clips ++ [extra]) =
    (gs10, [Println [AStr "Queue is currently full. Try again later. Queue count: ";
                     AInt 10]]).
Proof.
  intros Hq Hlen gs10.
  assert (Hall : Enqueue_all gs clips =
                 (mkGuildSession (ID gs) (GuildName gs) (VoiceConnection gs)
                    (mkChan 10 clips) (IsVoicePlaying gs), [])).
  { rewrite Enqueue_all_room by (rewrite Hq; cbn; lia). now rewrite Hq. }
  assert (Hfull : Enqueue gs10 extra =
    (gs10, [Println [AStr "Queue is currently full. Try again later. Queue count: ";
                     AInt 10]])).
  { unfold gs10. rewrite Hall. cbn [fst].
    rewrite Enqueue_full by (cbn; lia). cbn. now rewrite Hlen. }
  repeat split.
  - unfold gs10. now rewrite Hall.
  - now rewrite Hall.
  - exact Hfull.
  - rewrite Enqueue_all_snoc. fold gs10. rewrite Hfull. now rewrite Hall.
Qed.

Lemma Enqueue_capacity_witness :
  let clip (n : string) := mkVoiceMemo n [[x41]] in
  let clips := clip <$> ["a"; "b"; "c"; "d"; "e"; "f"; "g"; "h"; "i"; "j"] in
  let gs := mkGuildSession "g" "Guild" (mkVoiceConnection "g" "v" None)
              (mkChan 10 []) false in
  chan_buf (PlayQueue (Enqueue_all gs clips).1) = clips /\
  (Enqueue_all gs clips).2 = [] /\
  Enqueue (Enqueue_all gs clips).1 (clip "k") =
    ((Enqueue_all gs clips).1,
     [Println [AStr "Queue is currently full. Try again later. Queue count: ";
               AInt 10]]) /\
  Enqueue_all gs (clips ++ [clip "k"]) =
    ((Enqueue_all gs clips).1,
     [Println [AStr "Queue is currently full. Try again later. Queue count: ";
               AInt 10]]).
Proof.
  intros clip clips gs.
  apply (Enqueue_capacity gs clips (clip "k")); reflexivity.
Defined.

(** ** The session registry: claims C7 and C8 *)

(** The loop of [HandleJoin] stops at the sender's first voice state. *)
Lemma join_voice_find s g c m states b :
  join_voice s g c m states b =
  match List.find (fun vs => String.eqb (VS_UserID vs) (Author_ID m)) states with
  | None => None
  | Some vs =>
      match ChannelVoiceJoin s (Guild_ID g) (VS_ChannelID vs) with
      | inr err =>
          Some (b, [VoiceJoin (Guild_ID g) (VS_ChannelID vs);
                    Println [AStr "Error joining voice channel:"; AErr err]])
      | inl vc =>
          Some (set_session b (Guild_ID g)
                  (mkGuildSession (Guild_ID g) (Guild_Name g) vc (mkChan 10 []) false),
                [VoiceJoin (Guild_ID g) (VS_ChannelID vs);
                 Println [AStr "Creating new Guild session for "; AStr (Guild_Name g)];
                 ChannelMessageSend (Channel_ID c) ("Hello " +:+ Guild_Name g +:+ "!")])
      end
  end.
Proof.
  induction states as [|vs states IH]; [reflexivity|].
  cbn [join_voice List.find].
  destruct (String.eqb (VS_UserID vs) (Author_ID m)); [reflexivity|exact IH].
Qed.

Lemma HandleJoin_joined s g c m b gs :
  GuildSessions b !! Guild_ID g = Some gs ->
  HandleJoin s g c m b =
  (b, [Println [AStr "Already joined a voice channel in "; AStr (Guild_Name g)];
       ChannelMessageSend (Channel_ID c)
         ("I have already joined a voice channel in " +:+ Guild_Name g)]).
Proof. intros H. unfold HandleJoin. now rewrite H. Qed.

Lemma HandleJoin_success s g c m b vs vc :
  GuildSessions b !! Guild_ID g = None ->
  voice_state_of g m = Some vs ->
  ChannelVoiceJoin s (Guild_ID g) (VS_ChannelID vs) = inl vc ->
  HandleJoin s g c m b =
  (set_session b (Guild_ID g)
     (mkGuildSession (Guild_ID g) (Guild_Name g) vc (mkChan 10 []) false),
   [Println [AStr "Attempting to join voice channel in "; AStr (Guild_Name g)];
    VoiceJoin (Guild_ID g) (VS_ChannelID vs);
    Println [AStr "Creating new Guild session for "; AStr (Guild_Name g)];
    ChannelMessageSend (Channel_ID c) ("Hello " +:+ Guild_Name g +:+ "!")]).
Proof.
  intros Hnone Hvs Hvc. unfold HandleJoin. rewrite Hnone, join_voice_find.
  unfold voice_state_of in Hvs. now rewrite Hvs, Hvc.
Qed.

Lemma HandleJoin_not_in_voice s g c m b :
  GuildSessions b !! Guild_ID g = None ->
  voice_state_of g m = None ->
  HandleJoin s g c m b =
  (b, [Println [AStr "Attempting to join voice channel in "; AStr (Guild_Name g)];
       ChannelMessageSend (Channel_ID c) "You must join a voice channel first."]).
Proof.
  intros Hnone Hvs. unfold HandleJoin. rewrite Hnone, join_voice_find.
  unfold voice_state_of in Hvs. now rewrite Hvs.
Qed.

Lemma HandleJoin_no_connection s g c m b vs err :
  GuildSessions b !! Guild_ID g = None ->
  voice_state_of g m = Some vs ->
  ChannelVoiceJoin s (Guild_ID g) (VS_ChannelID vs) = inr err ->
  HandleJoin s g c m b =
  (b, [Println [AStr "Attempting to join voice channel in "; AStr (Guild_Name g)];
       VoiceJoin (Guild_ID g) (VS_ChannelID vs);
       Println [AStr "Error joining voice channel:"; AErr err]]).
Proof.
  intros Hnone Hvs Hvc. unfold HandleJoin. rewrite Hnone, join_voice_find.
  unfold voice_state_of in Hvs. now rewrite Hvs, Hvc.
Qed.

Lemma HandleLeave_joined s g b gs :
  GuildSessions b !! Guild_ID g = Some gs ->
  HandleLeave s g b =
  (mkBot (delete (Guild_ID g) (GuildSessions b)) (Manager b),
   [VoiceDisconnect (VC_GuildID (VoiceConnection gs))]).
Proof. intros H. unfold HandleLeave. now rewrite H. Qed.

Lemma HandleLeave_not_joined s g b :
  GuildSessions b !! Guild_ID g = None ->
  HandleLeave s g b = (b, [Println [AStr "Error finding guild session."]]).
Proof. intros H. unfold HandleLeave. now rewrite H. Qed.

(** C7.  For a tenant without a session, a sender who is in a voice channel
    of the tenant and a voice connection that can be made: the first join
    stores the session and greets; a second join, by any sender, answers
    that the bot has already joined and leaves the registry as it is;
    leave disconnects the connection and removes the entry, which gives the
    registry back as it was before the join; the join after that succeeds
    again; and leave without an entry prints that no session was found and
    changes nothing. *)
Theorem join_twice_leave_join (s : Session) (g : Guild) (c : Channel)
    (m m2 : MessageCreate) (b : Bot) (vs : VoiceState) (vc : discordgo.VoiceConnection) :
  GuildSessions b !! Guild_ID g = None ->
  voice_state_of g m = Some vs ->
  ChannelVoiceJoin s (Guild_ID g) (VS_ChannelID vs) = inl vc ->
  let gs := mkGuildSession (Guild_ID g) (Guild_Name g) vc (mkChan 10 []) false in
  let b1 := (HandleJoin s g c m b).1 in
  GuildSessions b1 !! Guild_ID g = Some gs /\
  last (HandleJoin s g c m b).2 =
    Some (ChannelMessageSend (Channel_ID c) ("Hello " +:+ Guild_Name g +:+ "!")) /\
  HandleJoin s g c m2 b1 =
    (b1, [Println [AStr "Already joined a voice channel in "; AStr (Guild_Name g)];
          ChannelMessageSend (Channel_ID c)
            ("I have already joined a voice channel in " +:+ Guild_Name g)]) /\
  HandleLeave s g b1 = (b, [VoiceDisconnect (VC_GuildID vc)]) /\
  (HandleJoin s g c m (HandleLeave s g b1).1).1 = b1 /\
  HandleLeave s g (HandleLeave s g b1).1 =
    (b, [Println [AStr "Error finding guild session."]]).
Proof.
  intros Hnone Hvs Hvc gs b1.
  assert (Hb1 : b1 = set_session b (Guild_ID g) gs).
  { unfold b1. now rewrite (HandleJoin_success s g c m b vs vc). }
  assert (Hin : GuildSessions b1 !! Guild_ID g = Some gs).
  { rewrite Hb1. apply lookup_insert_eq. }
  assert (Hleave : HandleLeave s g b1 = (b, [VoiceDisconnect (VC_GuildID vc)])).
  { rewrite (HandleLeave_joined s g b1 gs Hin). rewrite Hb1.
    unfold set_session. cbn [GuildSessions Manager].
    rewrite delete_insert_eq, delete_id by exact Hnone. now destruct b. }
  repeat split.
  - exact Hin.
  - now rewrite (HandleJoin_success s g c m b vs vc).
  - exact (HandleJoin_joined s g c m2 b1 gs Hin).
  - exact Hleave.
  - rewrite Hleave. reflexivity.
  - rewrite Hleave. exact (HandleLeave_not_joined s g b Hnone).
Qed.

Lemma join_twice_leave_join_witness :
  let gs := mkGuildSession "g" "Guild" (mkVoiceConnection "g" "v1" None)
              (mkChan 10 []) false in
  let join := HandleJoin Demo.session Demo.guild Demo.channel in
  let leave := HandleLeave Demo.session Demo.guild in
  GuildSessions Demo.bot_joined !! "g" = Some gs /\
  last (join (Demo.message "u1" "!join") Demo.bot).2 =
    Some (ChannelMessageSend "c" "Hello Guild!") /\
  join (Demo.message "u2" "!join") Demo.bot_joined =
    (Demo.bot_joined,
     [Println [AStr "Already joined a voice channel in "; AStr "Guild"];
      ChannelMessageSend "c" "I have already joined a voice channel in Guild"]) /\
  leave Demo.bot_joined = (Demo.bot, [VoiceDisconnect "g"]) /\
  (join (Demo.message "u1" "!join") (leave Demo.bot_joined).1).1 = Demo.bot_joined /\
  leave (leave Demo.bot_joined).1 =
    (Demo.bot, [Println [AStr "Error finding guild session."]]).
Proof.
  apply (join_twice_leave_join Demo.session Demo.guild Demo.channel
           (Demo.message "u1" "!join") (Demo.message "u2" "!join") Demo.bot
           (mkVoiceState "u1" "v1") (mkVoiceConnection "g" "v1" None));
    reflexivity.
Defined.

(** C8, as amended.  [HandleJoin] changes the registry in one case only:
    the tenant has no session, the sender has a voice state in the tenant
    and the voice connection is made; the entry stored then is the new
    session.  When the sender has no voice state nothing is stored, and the
    answer is "You must join a voice channel first." if the tenant has no
    session yet and "I have already joined ..." if it has one.  When the
    voice connection cannot be made nothing is stored. *)
Theorem HandleJoin_entry_only_on_success (s : Session) (g : Guild) (c : Channel)
    (m : MessageCreate) (b : Bot) :
  let b' := (HandleJoin s g c m b).1 in
  let tr := (HandleJoin s g c m b).2 in
  (b' = b \/
   exists vs vc,
     GuildSessions b !! Guild_ID g = None /\
     voice_state_of g m = Some vs /\
     ChannelVoiceJoin s (Guild_ID g) (VS_ChannelID vs) = inl vc /\
     b' = set_session b (Guild_ID g)
            (mkGuildSession (Guild_ID g) (Guild_Name g) vc (mkChan 10 []) false)) /\
  (voice_state_of g m = None ->
     b' = b /\
     (GuildSessions b !! Guild_ID g = None ->
        last tr = Some (ChannelMessageSend (Channel_ID c)
                          "You must join a voice channel first.")) /\
     (is_Some (GuildSessions b !! Guild_ID g) ->
        last tr = Some (ChannelMessageSend (Channel_ID c)
                          ("I have already joined a voice channel in " +:+ Guild_Name g)))) /\
  (forall vs err,
     voice_state_of g m = Some vs ->
     ChannelVoiceJoin s (Guild_ID g) (VS_ChannelID vs) = inr err ->
     b' = b).
Proof.
  intros b' tr. unfold b', tr.
  destruct (GuildSessions b !! Guild_ID g) as [gs|] eqn:Hreg.
  - rewrite (HandleJoin_joined s g c m b gs Hreg). cbn [fst snd].
    split; [now left|]. split; [|reflexivity].
    intros _. split; [reflexivity|]. split; [discriminate|reflexivity].
  - destruct (voice_state_of g m) as [vs|] eqn:Hvs.
    + destruct (ChannelVoiceJoin s (Guild_ID g) (VS_ChannelID vs)) as [vc|err] eqn:Hvc.
      * rewrite (HandleJoin_success s g c m b vs vc Hreg Hvs Hvc). cbn [fst snd].
        split; [right; eauto 10|]. split; [discriminate|].
        intros vs' err' [= <-] Herr. congruence.
      * rewrite (HandleJoin_no_connection s g c m b vs err Hreg Hvs Hvc). cbn [fst snd].
        split; [now left|]. split; [discriminate|reflexivity].
    + rewrite (HandleJoin_not_in_voice s g c m b Hreg Hvs). cbn [fst snd].
      split; [now left|]. split; [|discriminate].
      intros _. split; [reflexivity|]. split; [reflexivity|].
      intros [? ?]; discriminate.
Qed.

(** C8 as stated fails: a join by a sender without voice presence is not
    always answered with the not-in-voice notice.  When the tenant has a
    session already, the answer is that the bot has already joined. *)
Lemma HandleJoin_not_in_voice_counterexample :
  voice_state_of Demo.guild (Demo.message "u2" "!join") = None /\
  HandleJoin Demo.session Demo.guild Demo.channel (Demo.message "u2" "!join")
    Demo.bot_joined =
  (Demo.bot_joined,
   [Println [AStr "Already joined a voice channel in "; AStr "Guild"];
    ChannelMessageSend "c" "I have already joined a voice channel in Guild"]).
Proof. split; reflexivity. Qed.

(** The first revision stored a session for a sender without voice
    presence, and the second kept the session when the voice connection
    failed; the current revision stores it after the connection is made. *)
Lemma Earlier_first_stores_without_presence :
  voice_state_of Demo.guild (Demo.message "u2" "!join") = None /\
  is_Some (GuildSessions
             (Earlier.HandleJoin_first Demo.session Demo.guild
                (Demo.message "u2" "!join") Demo.bot) !! "g").
Proof. split; [reflexivity|]. eexists. reflexivity. Qed.

Lemma Earlier_second_stores_without_connection :
  is_Some (GuildSessions
             (Earlier.HandleJoin_second Demo.session_offline Demo.guild
                (Demo.message "u1" "!join") Demo.bot) !! "g") /\
  (HandleJoin Demo.session_offline Demo.guild Demo.channel
     (Demo.message "u1" "!join") Demo.bot).1 = Demo.bot.
Proof. split; [eexists|]; reflexivity. Qed.

(** ** The command dispatcher: claim C10 *)

(** C10.  A message with the content [!play], from a user other than the
    bot, in a channel and guild that the session knows, makes
    [CommandCenter] panic: [args] has one element and [args[1]] is out of
    range.  Nothing is sent to the channel and the bot is unchanged. *)
Theorem CommandCenter_play_without_argument (env : UploadEnv) (s : Session)
    (m : MessageCreate) (b : Bot) (disk : Disk) (c : Channel) (g : Guild) :
  Author_ID m <> State_User_ID s ->
  Content m = "!play" ->
  State_Channel s (ChannelID m) = Some c ->
  State_Guild s (Channel_GuildID c) = Some g ->
  CommandCenter env s m b disk =
  (b, disk, [Println [AStr "Message: "; AStr "!play"]],
   Panic "index out of range [1] with length 1").
Proof.
  intros Hauthor Hcontent Hc Hg. unfold CommandCenter.
  apply String.eqb_neq in Hauthor. rewrite Hauthor, Hc, Hg, Hcontent.
  reflexivity.
Qed.

Lemma CommandCenter_play_without_argument_witness :
  CommandCenter Demo.env Demo.session (Demo.message "u1" "!play") Demo.bot_joined ∅ =
  (Demo.bot_joined, ∅, [Println [AStr "Message: "; AStr "!play"]],
   Panic "index out of range [1] with length 1").
Proof.
  apply (CommandCenter_play_without_argument Demo.env Demo.session
           (Demo.message "u1" "!play") Demo.bot_joined ∅ Demo.channel Demo.guild).
  - discriminate.
  - reflexivity.
  - reflexivity.
  - reflexivity.
Defined.

(** ** The drain loop: claim C9 *)

Lemma frames_of_app tr1 tr2 : frames_of (tr1 ++ tr2) = frames_of tr1 ++ frames_of tr2.
Proof. unfold frames_of. apply omap_app. Qed.

(** A send loop ends by sending everything or by blocking; what it has
    sent is the front part of the buffer. *)
Lemma send_buffer_spec frames : forall vc vc' tr e,
  send_buffer vc frames = (vc', tr, e) ->
  (e = Done /\ frames_of tr = frames) \/
  (e = Blocks /\ exists unsent, unsent <> [] /\ frames = frames_of tr ++ unsent).
Proof.
  induction frames as [|buff frames IH]; intros vc vc' tr e H.
  - injection H as <- <- <-. now left.
  - cbn [send_buffer] in H.
    destruct (VC_OpusCredit vc) as [[|n]|] eqn:Hcredit.
    + injection H as <- <- <-. right. split; [reflexivity|].
      exists (buff :: frames). split; [discriminate|reflexivity].
    + destruct (send_buffer _ frames) as [[vc1 tr1] e1] eqn:Hrec.
      injection H as <- <- <-.
      destruct (IH _ _ _ _ Hrec) as [[-> Hall]|[-> (unsent & Hne & Hsplit)]].
      * left. split; [reflexivity|]. cbn. now rewrite <- Hall.
      * right. split; [reflexivity|]. exists unsent. split; [exact Hne|].
        cbn. now rewrite Hsplit at 1.
    + destruct (send_buffer _ frames) as [[vc1 tr1] e1] eqn:Hrec.
      injection H as <- <- <-.
      destruct (IH _ _ _ _ Hrec) as [[-> Hall]|[-> (unsent & Hne & Hsplit)]].
      * left. split; [reflexivity|]. cbn. now rewrite <- Hall.
      * right. split; [reflexivity|]. exists unsent. split; [exact Hne|].
        cbn. now rewrite Hsplit at 1.
Qed.

(** The drain loop ends with an empty queue after sending every frame of
    every queued clip in order, or it blocks inside a clip. *)
Lemma drain_spec queue : forall vc vc' rest tr e,
  drain vc queue = (vc', rest, tr, e) ->
  (e = Done /\ rest = [] /\ frames_of tr = concat (buffer <$> queue)) \/
  (e = Blocks /\ exists unsent,
      unsent <> [] /\ concat (buffer <$> queue) = frames_of tr ++ unsent).
Proof.
  induction queue as [|dequeued queue IH]; intros vc vc' rest tr e H.
  - injection H as <- <- <- <-. now left.
  - cbn [drain] in H.
    destruct (send_buffer vc (buffer dequeued)) as [[vc1 tr1] e1] eqn:Hsend.
    destruct (send_buffer_spec _ _ _ _ _ Hsend) as [[-> Hall]|[-> (unsent & Hne & Hsplit)]].
    + destruct (drain vc1 queue) as [[[vc2 rest2] tr2] e2] eqn:Hrec.
      injection H as <- <- <- <-.
      rewrite frames_of_app. cbn [fmap list_fmap concat].
      change (frames_of (Sleep 100 :: tr2)) with (frames_of tr2).
      destruct (IH _ _ _ _ _ Hrec) as [(-> & -> & Hq)|(-> & unsent & Hne & Hq)].
      * left. now rewrite Hall, Hq.
      * right. split; [reflexivity|]. exists unsent. split; [exact Hne|].
        now rewrite Hall, Hq, app_assoc.
    + injection H as <- <- <- <-. right. split; [reflexivity|].
      exists (unsent ++ concat (buffer <$> queue)). split.
      * destruct unsent; [congruence|discriminate].
      * cbn [fmap list_fmap concat]. now rewrite Hsplit, app_assoc.
Qed.

(** A trigger that finds the flag set prints a line and returns. *)
Lemma PlayFromQueue_playing gs :
  IsVoicePlaying gs = true ->
  PlayFromQueue gs =
  (gs, [Println [AStr "Your voice memo is being added to the queue."]], Done).
Proof. intros H. unfold PlayFromQueue. now rewrite H. Qed.

(** The trigger that finds the flag clear: either it drains the whole queue
    and clears the flag again, or a send never completes and the flag
    stays set. *)
Lemma PlayFromQueue_idle gs gs' tr e :
  IsVoicePlaying gs = false ->
  PlayFromQueue gs = (gs', tr, e) ->
  (e = Done /\ IsVoicePlaying gs' = false /\ chan_buf (PlayQueue gs') = [] /\
   frames_of tr = concat (buffer <$> chan_buf (PlayQueue gs))) \/
  (e = Blocks /\ IsVoicePlaying gs' = true /\
   exists unsent, unsent <> [] /\
     concat (buffer <$> chan_buf (PlayQueue gs)) = frames_of tr ++ unsent).
Proof.
  intros Hidle H. unfold PlayFromQueue in H. rewrite Hidle in H.
  destruct (drain (VoiceConnection gs) (chan_buf (PlayQueue gs)))
    as [[[vc1 rest] tr1] e1] eqn:Hdrain.
  destruct (drain_spec _ _ _ _ _ _ Hdrain) as [(-> & -> & Hq)|(-> & unsent & Hne & Hq)].
  - injection H as <- <- <-. left. repeat split; try reflexivity.
    cbn. rewrite frames_of_app. cbn. now rewrite app_nil_r.
  - injection H as <- <- <-. right. repeat split; try reflexivity.
    exists unsent. split; [exact Hne|exact Hq].
Qed.

Lemma Enqueue_keeps_flag gs vm :
  IsVoicePlaying (Enqueue gs vm).1 = IsVoicePlaying gs /\
  frames_of (Enqueue gs vm).2 = [].
Proof.
  unfold Enqueue.
  destruct (length (chan_buf (PlayQueue gs)) <? chan_cap (PlayQueue gs))%nat;
    now split.
Qed.







(** ** Concurrent triggers: claim C1 *)

Module RaceFacts.
Import Race.

Lemma count_cons pc l : count (pc :: l) = (weight pc + count l)%nat.
Proof.
  unfold count, weight. rewrite filter_cons.
  destruct (decide (draining pc = true)) as [->|Hn]; [reflexivity|].
  destruct (draining pc); [congruence|reflexivity].
Qed.

(** Replacing one goroutine's program counter moves the counter by the
    difference of the two weights. *)
Lemma count_insert l : forall i pc pc',
  l !! i = Some pc ->
  (count (<[i := pc']> l) + weight pc = count l + weight pc')%nat.
Proof.
  induction l as [|x l IH]; intros i pc pc' Hi; [discriminate|].
  destruct i as [|i].
  - injection Hi as ->.
    change (<[0%nat := pc']> (pc :: l)) with (pc' :: l).
    rewrite !count_cons. lia.
  - change (<[S i := pc']> (x :: l)) with (x :: <[i := pc']> l).
    rewrite !count_cons. pose proof (IH i pc pc' Hi). lia.
Qed.

Lemma single_flight_triggers n queue : single_flight (triggers n queue).
Proof.
  split; cbn.
  - apply Forall_forall. intros pc Hin.
    apply elem_of_replicate in Hin as [-> _]. discriminate.
  - unfold drainers, count. cbn. induction n as [|n IH]; [reflexivity|].
    cbn [replicate]. rewrite filter_cons_False by discriminate. exact IH.
Qed.

Lemma single_flight_move cfg i :
  single_flight cfg -> single_flight (move step_compare_and_set cfg i).
Proof.
  intros [Hno Hcount]. unfold move.
  destruct (goroutines cfg !! i) as [pc|] eqn:Hi; [|now split].
  assert (Hpc : pc <> AtStore).
  { rewrite Forall_forall in Hno. apply Hno. eapply list_elem_of_lookup_2, Hi. }
  destruct (step_compare_and_set (shared cfg) pc) as [sh' pc'] eqn:Hstep.
  assert (Hpc' : pc' <> AtStore).
  { destruct pc as [| | | |[|]| | |]; cbn in Hstep;
      repeat match type of Hstep with
        | context [if ?b then _ else _] => destruct b
        | context [match ?q with [] => _ | _ :: _ => _ end] => destruct q
        end; injection Hstep as <- <-; congruence. }
  split; cbn [goroutines shared].
  - apply Forall_insert; assumption.
  - pose proof (count_insert (goroutines cfg) i pc pc' Hi) as Hins.
    unfold drainers in *. cbn [goroutines].
    unfold weight in Hins.
    destruct pc as [| | | |[|]| | |]; cbn in Hstep; try congruence;
      repeat match type of Hstep with
        | context [if ?b then _ else _] => destruct b eqn:?
        | context [match ?q with [] => _ | _ :: _ => _ end] => destruct q
        end; injection Hstep as <- <-; cbn in *;
      repeat match goal with
        | H : flag _ = _ |- _ => rewrite H in *
        end;
      try lia;
      destruct (flag (shared cfg)); lia.
Qed.

Lemma single_flight_run schedule : forall cfg,
  single_flight cfg -> single_flight (run step_compare_and_set cfg schedule).
Proof.
  induction schedule as [|i schedule IH]; intros cfg Hcfg; [exact Hcfg|].
  cbn [run foldl]. apply IH, single_flight_move, Hcfg.
Qed.

End RaceFacts.

(** With the guard the specification describes, a compare-and-set on the
    flag, no schedule of any number of triggers ever has two goroutines in
    the drain role. *)
Lemma compare_and_set_one_drainer (n : nat) (queue : list VoiceMemo)
    (schedule : list nat) :
  (Race.drainers (Race.run Race.step_compare_and_set (Race.triggers n queue) schedule)
   <= 1)%nat.
Proof.
  destruct (RaceFacts.single_flight_run schedule _
              (RaceFacts.single_flight_triggers n queue)) as [_ H].
  rewrite H. destruct (Race.flag _); lia.
Qed.

(** C1: exactly one concurrent trigger is claimed to win the drain role.
    In the source the flag is read with [Load] and set with a separate
    [Store].  Two triggers that both read the flag before either writes it
    are both in the drain role, whatever the queue holds; on the queue of
    clips [a] (frames 41, 42) and [b] (frame 43) they then send the frame of
    [b] between the two frames of [a]. *)
Theorem PlayFromQueue_race_two_drainers :
  (forall queue,
     Race.drainers (Race.run Race.step (Race.triggers 2 queue) [0; 1; 0; 1]%nat) = 2%nat) /\
  Race.sent (Race.shared
    (Race.run Race.step (Race.triggers 2 [Demo.clip_a; Demo.clip_b])
       [0; 1; 0; 1; 0; 1; 0; 1; 0; 1; 0]%nat))
  = [[x41]; [x43]; [x42]].
Proof. split; [intros queue|]; reflexivity. Qed.

(** ** The clip catalog: its entries *)

Section Catalog.

Let entry (voiceMemoMap : gmap string VoiceMemo) (f : string) :=
  <[Split_dot_0 f := mkVoiceMemo (Split_dot_0 f) []]> voiceMemoMap.

Lemma entries_keep files : forall (acc : gmap string VoiceMemo) k,
  acc !! k = Some (mkVoiceMemo k []) ->
  foldl entry acc files !! k = Some (mkVoiceMemo k []).
Proof.
  induction files as [|f files IH]; intros acc k Hk; [exact Hk|].
  cbn [foldl]. apply IH. unfold entry.
  destruct (decide (Split_dot_0 f = k)) as [->|Hne].
  - apply lookup_insert_eq.
  - now rewrite lookup_insert_ne.
Qed.

Lemma entries_listed files : forall (acc : gmap string VoiceMemo) f,
  f ∈ files ->
  foldl entry acc files !! Split_dot_0 f = Some (mkVoiceMemo (Split_dot_0 f) []).
Proof.
  induction files as [|f0 files IH]; intros acc f Hin.
  - inversion Hin.
  - cbn [foldl]. apply elem_of_cons in Hin as [->|Hin].
    + apply entries_keep. unfold entry. apply lookup_insert_eq.
    + now apply IH.
Qed.

(** Every file of the directory has an entry after [NewVoiceMemoManager],
    under its name up to the first dot and with an empty buffer. *)
Lemma NewVoiceMemoManager_entry (disk : Disk) f :
  is_Some (disk !! f) ->
  exists m, NewVoiceMemoManager (Some disk) = (inl m, []) /\
    Store m !! Split_dot_0 f = Some (mkVoiceMemo (Split_dot_0 f) []).
Proof.
  intros [bytes Hf]. eexists. split; [reflexivity|]. cbn [Store].
  apply (entries_listed (map_to_list disk).*1 ∅ f).
  apply list_elem_of_fmap. exists (f, bytes). split; [reflexivity|].
  now apply elem_of_map_to_list.
Qed.

End Catalog.

(** [LoadAll] keeps every entry, with whatever [Load] left in its buffer. *)
Lemma LoadAll_lookup disk m k :
  Store (LoadAll disk m).1.1 !! k = (fun vm => (Load disk vm).1.1) <$> (Store m !! k).
Proof.
  unfold LoadAll.
  destruct (List.find _ _); cbn [fst Store]; rewrite !lookup_fmap;
    now destruct (Store m !! k).
Qed.

(** [LoadAll] never returns an error. *)
Lemma LoadAll_no_error disk m e : (LoadAll disk m).2 <> Returned (Some e).
Proof.
  unfold LoadAll.
  destruct (List.find _ _) as [r|] eqn:Hfind; cbn [snd]; [|discriminate].
  apply find_some in Hfind as [_ Hpanic].
  destruct r.2; [discriminate|]. discriminate.
Qed.

Lemma HandleUpload_converted env s m b disk att rest body :
  Attachments m = att :: rest ->
  http_Get env (Att_URL att) = inl body ->
  os_Create_ok env (Att_Filename att) = true ->
  io_Copy_ok env = true ->
  os_Create_ok env (Split_dot_0 (Att_Filename att) +:+ ".dca") = true ->
  let n := Split_dot_0 (Att_Filename att) in
  let disk4 := uploaded_disk env (Att_Filename att) body disk in
  HandleUpload env s m b disk =
  match (Load disk4 (mkVoiceMemo n [])).2 with
  | Panicked msg =>
      (b, delete (Att_Filename att) disk4, (Load disk4 (mkVoiceMemo n [])).1.2, Panic msg)
  | Returned _ =>
      (mkBot (GuildSessions b)
         (mkVoiceMemoManager
            (<[n := (Load disk4 (mkVoiceMemo n [])).1.1]> (Store (Manager b)))),
       delete (Att_Filename att) disk4,
       (Load disk4 (mkVoiceMemo n [])).1.2 ++
       [ChannelMessageSend (ChannelID m) ("Successfully uploaded " +:+ n)],
       Done)
  end.
Proof.
  intros Hatt Hget Hc1 Hcopy Hc2 n disk4. unfold HandleUpload.
  rewrite Hatt, Hget, Hc1, Hcopy, Hc2. cbn [negb].
  fold n. unfold disk4, uploaded_disk. fold n.
  now destruct (Load _ (mkVoiceMemo n [])) as [[vm log] [err|msg]].
Qed.

(** * Further properties of the code *)

(** ** The decoder, in full *)

Lemma ReadFull_inl r n bs rest :
  ReadFull r n = inl (bs, rest) -> r = bs ++ rest /\ length bs = n.
Proof.
  unfold ReadFull. destruct (Nat.ltb_spec (length r) n); [discriminate|].
  intros [= <- <-]. split; [now rewrite take_drop|]. rewrite length_take. lia.
Qed.

Lemma ReadFull_inr r n e :
  ReadFull r n = inr e ->
  (length r < n)%nat /\ e = match r with [] => EOF | _ :: _ => ErrUnexpectedEOF end.
Proof.
  unfold ReadFull. destruct (Nat.ltb_spec (length r) n); [|discriminate].
  intros [= <-]. now split.
Qed.

Lemma Read_int16_inl file opuslen rest :
  Read_int16 file = inl (opuslen, rest) ->
  exists b0 b1, file = b0 :: b1 :: rest /\ opuslen = int16 (Uint16 [b0; b1]).
Proof.
  unfold Read_int16. destruct (ReadFull file 2) as [[bs r]|] eqn:E; [|discriminate].
  intros [= <- <-]. apply ReadFull_inl in E as [-> Hlen].
  destruct bs as [|b0 [|b1 [|? ?]]]; try discriminate. now exists b0, b1.
Qed.

Lemma Read_int16_inr file e :
  Read_int16 file = inr e ->
  (file = [] /\ e = EOF) \/ (exists b, file = [b] /\ e = ErrUnexpectedEOF).
Proof.
  unfold Read_int16. destruct (ReadFull file 2) as [[bs r]|e'] eqn:E; [discriminate|].
  intros [= <-]. apply ReadFull_inr in E as [Hlen ->].
  destruct file as [|b [|? ?]]; cbn in Hlen; [now left|right; eauto|lia].
Qed.

Lemma byte_of_Z_byte_Z b : byte_of_Z (byte_Z b) = b.
Proof.
  unfold byte_of_Z, byte_Z. rewrite N2Z.id, Byte.of_to_N. reflexivity.
Qed.

Lemma PutUint16_Uint16 b0 b1 : PutUint16 (Uint16 [b0; b1]) = [b0; b1].
Proof.
  rewrite Uint16_bytes. unfold PutUint16.
  pose proof (byte_Z_range b0). pose proof (byte_Z_range b1).
  replace ((byte_Z b0 + 256 * byte_Z b1) mod 256) with (byte_Z b0)
    by (apply Z.mod_unique_pos with (q := byte_Z b1); lia).
  replace ((byte_Z b0 + 256 * byte_Z b1) / 256) with (byte_Z b1)
    by (apply Z.div_unique_pos with (r := byte_Z b0); lia).
  rewrite Z.mod_small by lia. now rewrite !byte_of_Z_byte_Z.
Qed.

Lemma encode_app frames1 frames2 : encode (frames1 ++ frames2) = encode frames1 ++ encode frames2.
Proof. unfold encode. now rewrite map_app, concat_app. Qed.

Lemma Load_loop_explained_fuel (fuel : nat) : forall file buf,
  (length file < fuel)%nat ->
  exists frames,
    (Load_loop file buf).1.1 = buf ++ frames /\
    fits_int16 frames /\
    explains file frames (Load_loop file buf).2.
Proof.
  induction fuel as [|fuel IH]; intros file buf Hfuel; [lia|].
  rewrite Load_loop_step.
  destruct (Read_int16 file) as [[opuslen rest]|e] eqn:Hlen.
  - apply Read_int16_inl in Hlen as (b0 & b1 & -> & ->).
    destruct (Z.ltb_spec (int16 (Uint16 [b0; b1])) 0) as [Hneg|Hpos].
    + exists []. cbn [fst snd]. rewrite app_nil_r.
      split; [reflexivity|]. split; [constructor|].
      split; [reflexivity|]. now exists b0, b1, rest.
    + destruct (Read_bytes rest (Z.to_nat (int16 (Uint16 [b0; b1]))))
        as [[IntBuf rest']|e] eqn:Hpay.
      * apply ReadFull_inl in Hpay as [-> HIntBuf].
        assert (Hbound : Z.of_nat (length IntBuf) <= 32767).
        { rewrite HIntBuf, Z2Nat.id by lia. unfold int16.
          destruct (Z.ltb_spec (Uint16 [b0; b1]) 32768); [lia|].
          pose proof (Uint16_bytes b0 b1 []).
          pose proof (byte_Z_range b0). pose proof (byte_Z_range b1). lia. }
        assert (Hrec : encode_record IntBuf = b0 :: b1 :: IntBuf).
        { unfold encode_record. rewrite HIntBuf, Z2Nat.id by lia.
          unfold int16 in *.
          destruct (Z.ltb_spec (Uint16 [b0; b1]) 32768).
          - now rewrite PutUint16_Uint16.
          - pose proof (Uint16_bytes b0 b1 []).
            pose proof (byte_Z_range b0). pose proof (byte_Z_range b1). lia. }
        destruct (IH rest' (buf ++ [IntBuf])) as (frames & Hbuf & Hfit & Hex).
        { cbn in Hfuel. rewrite length_app in Hfuel. lia. }
        exists (IntBuf :: frames). split; [|split].
        -- rewrite Hbuf, <- app_assoc. reflexivity.
        -- now constructor.
        -- assert (Henc : forall t, b0 :: b1 :: IntBuf ++ t =
                                      encode_record IntBuf ++ t)
             by (intros t; now rewrite Hrec).
           unfold explains in *. unfold encode. cbn [map concat]. fold (encode frames).
           destruct (Load_loop rest' (buf ++ [IntBuf])).2 as [[e|]|msg].
           ++ destruct Hex as (c0 & c1 & partial & -> & H0 & H1 & ->).
              exists c0, c1, partial. rewrite Hrec.
              split; [|now repeat split]. now rewrite <- app_assoc.
           ++ destruct Hex as (tail & -> & Htail). exists tail.
              rewrite Hrec. split; [|exact Htail]. now rewrite <- app_assoc.
           ++ destruct Hex as (-> & c0 & c1 & r & -> & Hneg).
              split; [reflexivity|]. exists c0, c1, r. rewrite Hrec.
              split; [|exact Hneg]. now rewrite <- app_assoc.
      * apply ReadFull_inr in Hpay as [Hshort ->].
        exists []. cbn [fst snd]. rewrite app_nil_r.
        split; [reflexivity|]. split; [constructor|].
        exists b0, b1, rest. repeat split; [lia|lia].
  - apply Read_int16_inr in Hlen as [[-> ->]|(b & -> & ->)].
    + exists []. cbn [fst snd]. rewrite app_nil_r.
      split; [reflexivity|]. split; [constructor|]. exists []. split; [reflexivity|cbn; lia].
    + exists []. cbn [fst snd]. rewrite app_nil_r.
      split; [reflexivity|]. split; [constructor|]. exists [b]. split; [reflexivity|cbn; lia].
Qed.

Lemma Load_loop_explained file buf :
  exists frames,
    (Load_loop file buf).1.1 = buf ++ frames /\
    fits_int16 frames /\
    explains file frames (Load_loop file buf).2.
Proof. apply (Load_loop_explained_fuel (S (length file))). lia. Qed.

(** The frames already in the buffer have no influence on what the loop
    decodes: it appends to them what it would produce from nothing. *)
Lemma Load_loop_appends_fuel (fuel : nat) : forall file buf,
  (length file < fuel)%nat ->
  Load_loop file buf =
  (buf ++ (Load_loop file []).1.1, (Load_loop file []).1.2, (Load_loop file []).2).
Proof.
  induction fuel as [|fuel IH]; intros file buf Hfuel; [lia|].
  rewrite (Load_loop_step file buf), (Load_loop_step file []).
  destruct (Read_int16 file) as [[opuslen rest]|e] eqn:Hlen.
  - destruct (opuslen <? 0); [cbn; now rewrite app_nil_r|].
    destruct (Read_bytes rest (Z.to_nat opuslen)) as [[IntBuf rest']|e] eqn:Hpay;
      [|cbn; now rewrite app_nil_r].
    assert (Hshort : (length rest' < fuel)%nat).
    { apply Read_int16_inl in Hlen as (b0 & b1 & -> & _).
      apply ReadFull_inl in Hpay as [-> _]. cbn in Hfuel.
      rewrite length_app in Hfuel. lia. }
    rewrite (IH rest' (buf ++ [IntBuf]) Hshort), (IH rest' ([] ++ [IntBuf]) Hshort).
    cbn [fst snd app]. now rewrite <- app_assoc.
  - destruct e; cbn; now rewrite app_nil_r.
Qed.

Lemma Load_loop_appends file buf :
  Load_loop file buf =
  (buf ++ (Load_loop file []).1.1, (Load_loop file []).1.2, (Load_loop file []).2).
Proof. apply (Load_loop_appends_fuel (S (length file))). lia. Qed.

(** The loop prints one line, when a payload is cut short, and nothing
    otherwise: the read of a length fails with [io.EOF] or
    [io.ErrUnexpectedEOF] only, which end the loop without a line. *)
Lemma Load_loop_lines_fuel (fuel : nat) : forall file buf,
  (length file < fuel)%nat ->
  (Load_loop file buf).1.2 =
  match (Load_loop file buf).2 with
  | Returned (Some e) => [Println [AStr "Error reading from dca file2 :"; AErr e]]
  | _ => []
  end.
Proof.
  induction fuel as [|fuel IH]; intros file buf Hfuel; [lia|].
  rewrite (Load_loop_step file buf).
  destruct (Read_int16 file) as [[opuslen rest]|e] eqn:Hlen.
  - destruct (opuslen <? 0); [reflexivity|].
    destruct (Read_bytes rest (Z.to_nat opuslen)) as [[IntBuf rest']|e] eqn:Hpay;
      [|reflexivity].
    apply IH.
    apply Read_int16_inl in Hlen as (b0 & b1 & -> & _).
    apply ReadFull_inl in Hpay as [-> _]. cbn in Hfuel.
    rewrite length_app in Hfuel. lia.
  - apply Read_int16_inr in Hlen as [[-> ->]|(b & -> & ->)]; reflexivity.
Qed.

Lemma Load_loop_lines file buf :
  (Load_loop file buf).1.2 =
  match (Load_loop file buf).2 with
  | Returned (Some e) => [Println [AStr "Error reading from dca file2 :"; AErr e]]
  | _ => []
  end.
Proof. apply (Load_loop_lines_fuel (S (length file))). lia. Qed.

(** X1.  [Load] returns [nil] exactly on the files that are complete records,
    each of at most 32767 payload bytes, followed by nothing or by one
    stray byte; the frames it returns are then the payloads of the records,
    all of them and in order, and nothing is printed on the console. *)
Theorem Load_loop_success_iff (file : list byte) (frames : list (list byte))
    (lines : list Event) :
  Load_loop file [] = (frames, lines, Returned None) <->
  lines = [] /\
  fits_int16 frames /\
  exists tail, file = encode frames ++ tail /\ (length tail <= 1)%nat.
Proof.
  split.
  - intros H. destruct (Load_loop_explained file []) as (frames' & Hbuf & Hfit & Hex).
    pose proof (Load_loop_lines file []) as Hlines.
    rewrite H in Hbuf, Hex, Hlines. cbn in Hbuf, Hex, Hlines. subst frames'. now split.
  - intros (-> & Hfit & tail & -> & Htail).
    rewrite Load_loop_encode by exact Hfit. cbn [app].
    rewrite Load_loop_step.
    destruct tail as [|b [|? ?]]; [reflexivity|reflexivity|cbn in Htail; lia].
Qed.



(** X3.  [Load] panics exactly on the files that hold, after complete records,
    a length prefix whose second byte is 128 or more.  Whatever follows
    that prefix does not matter, and nothing is printed before the
    panic. *)
Theorem Load_loop_panic_iff (file : list byte) (frames : list (list byte))
    (lines : list Event) (msg : string) :
  Load_loop file [] = (frames, lines, Panicked msg) <->
  lines = [] /\
  msg = "makeslice: len out of range" /\
  fits_int16 frames /\
  exists b0 b1 rest, file = encode frames ++ b0 :: b1 :: rest /\ 128 <= byte_Z b1.
Proof.
  assert (Hneg : forall b0 b1, int16 (Uint16 [b0; b1]) < 0 <-> 128 <= byte_Z b1).
  { intros b0 b1. rewrite Uint16_bytes. unfold int16.
    pose proof (byte_Z_range b0). pose proof (byte_Z_range b1).
    destruct (Z.ltb_spec (byte_Z b0 + 256 * byte_Z b1) 32768); lia. }
  split.
  - intros H. destruct (Load_loop_explained file []) as (frames' & Hbuf & Hfit & Hex).
    pose proof (Load_loop_lines file []) as Hlines.
    rewrite H in Hbuf, Hex, Hlines. cbn in Hbuf, Hex, Hlines. subst frames'.
    destruct Hex as (-> & b0 & b1 & rest & -> & Hlt).
    split; [exact Hlines|]. split; [reflexivity|]. split; [exact Hfit|].
    exists b0, b1, rest. split; [reflexivity|]. apply (proj1 (Hneg b0 b1)). exact Hlt.
  - intros (-> & -> & Hfit & b0 & b1 & rest & -> & Hhigh).
    rewrite Load_loop_encode by exact Hfit. cbn [app].
    now rewrite Load_loop_negative_length.
Qed.

(** X4.  [Load] does not reset the buffer: on a memo that holds frames already
    it appends what the file decodes to, with the same console lines and
    the same outcome; loading the same file a second time leaves every
    decoded frame twice in the buffer. *)
Theorem Load_appends (disk : Disk) (vm : VoiceMemo) (file : list byte) :
  disk !! (name vm +:+ ".dca") = Some file ->
  let decoded := Load_loop file [] in
  Load disk vm =
    (mkVoiceMemo (name vm) (buffer vm ++ decoded.1.1), decoded.1.2, decoded.2) /\
  Load disk (Load disk vm).1.1 =
    (mkVoiceMemo (name vm) (buffer vm ++ decoded.1.1 ++ decoded.1.1),
     decoded.1.2, decoded.2).
Proof.
  intros Hfile decoded.
  assert (H1 : Load disk vm =
               (mkVoiceMemo (name vm) (buffer vm ++ decoded.1.1), decoded.1.2, decoded.2)).
  { rewrite (Load_lookup disk vm file Hfile), Load_loop_appends. reflexivity. }
  split; [exact H1|]. rewrite H1. cbn [fst].
  rewrite (Load_lookup disk (mkVoiceMemo (name vm) (buffer vm ++ decoded.1.1)) file Hfile).
  cbn [name buffer]. rewrite Load_loop_appends. cbn [fst snd].
  now rewrite <- app_assoc.
Qed.

Lemma Load_appends_witness :
  let disk : Disk := {["a.dca" := [x01; x00; x41]]} in
  Load disk (mkVoiceMemo "a" [[x40]]) =
    (mkVoiceMemo "a" [[x40]; [x41]], [], Returned None) /\
  Load disk (Load disk (mkVoiceMemo "a" [[x40]])).1.1 =
    (mkVoiceMemo "a" [[x40]; [x41]; [x41]], [], Returned None).
Proof.
  intros disk.
  pose proof (Load_appends disk (mkVoiceMemo "a" [[x40]]) [x01; x00; x41] eq_refl) as H.
  assert (Hd : Load_loop [x01; x00; x41] [] = ([[x41]], [], Returned None))
    by (vm_compute; reflexivity).
  cbv zeta in H. rewrite Hd in H. exact H.
Defined.

(** ** The catalog at startup *)

Lemma Split_dot_0_idem s : Split_dot_0 (Split_dot_0 s) = Split_dot_0 s.
Proof.
  induction s as [|ch s IH]; [reflexivity|]. cbn [Split_dot_0].
  destruct (Ascii.eqb ch ".") eqn:E; [reflexivity|].
  cbn [Split_dot_0]. now rewrite E, IH.
Qed.

Lemma Split_dot_0_extension n ext :
  Split_dot_0 n = n -> Split_dot_0 (n +:+ "." +:+ ext) = n.
Proof.
  induction n as [|ch n IH]; intros H; [reflexivity|].
  simpl in *.
  destruct (Ascii.eqb ch "."); [discriminate|].
  injection H as H. f_equal. now apply IH.
Qed.

Section CatalogKeys.

Let entry (voiceMemoMap : gmap string VoiceMemo) (f : string) :=
  <[Split_dot_0 f := mkVoiceMemo (Split_dot_0 f) []]> voiceMemoMap.

Lemma entries_origin files : forall (acc : gmap string VoiceMemo) k vm,
  foldl entry acc files !! k = Some vm ->
  acc !! k = Some vm \/
  (vm = mkVoiceMemo k [] /\ exists f, f ∈ files /\ Split_dot_0 f = k).
Proof.
  induction files as [|f files IH]; intros acc k vm H; [now left|].
  cbn [foldl] in H. apply IH in H as [H|(-> & f' & Hin & Hk)].
  - unfold entry in H. destruct (decide (Split_dot_0 f = k)) as [<-|Hne].
    + rewrite lookup_insert_eq in H. injection H as <-.
      right. split; [reflexivity|]. exists f. split; [left|reflexivity].
    + rewrite lookup_insert_ne in H by exact Hne. now left.
  - right. split; [reflexivity|]. exists f'. split; [now right|exact Hk].
Qed.

Lemma NewVoiceMemoManager_origin (disk : Disk) m k vm :
  NewVoiceMemoManager (Some disk) = (inl m, []) ->
  Store m !! k = Some vm ->
  vm = mkVoiceMemo k [] /\ exists f, is_Some (disk !! f) /\ Split_dot_0 f = k.
Proof.
  intros Hnew Hk. injection Hnew as <-. cbn [Store] in Hk.
  apply (entries_origin (map_to_list disk).*1 ∅ k vm) in Hk
    as [Hk|(-> & f & Hin & Hf)]; [now rewrite lookup_empty in Hk|].
  split; [reflexivity|]. exists f. split; [|exact Hf].
  apply list_elem_of_fmap in Hin as ([f' bytes] & -> & Hin).
  apply elem_of_map_to_list in Hin. eauto.
Qed.

(** X5.  [NewVoiceMemoManager] makes exactly one entry for every name that is
    the part before the first dot of some file of the directory; the entry
    is the memo of that name with an empty buffer.  Files that differ only
    after the first dot share one entry. *)
Theorem NewVoiceMemoManager_entries (disk : Disk) (k : string) (vm : VoiceMemo) :
  (exists m, NewVoiceMemoManager (Some disk) = (inl m, []) /\ Store m !! k = Some vm) <->
  vm = mkVoiceMemo k [] /\ exists f, is_Some (disk !! f) /\ Split_dot_0 f = k.
Proof.
  split.
  - intros (m & Hnew & Hk). exact (NewVoiceMemoManager_origin disk m k vm Hnew Hk).
  - intros (-> & f & Hf & <-).
    destruct (NewVoiceMemoManager_entry disk f Hf) as (m & Hnew & Hentry). eauto.
Qed.

End CatalogKeys.

Lemma Load_name disk vm : name (Load disk vm).1.1 = name vm.
Proof.
  unfold Load. destruct (disk !! _); [|reflexivity].
  now destruct (Load_loop _ _) as [[? ?] ?].
Qed.

(** The only panic of [Load] is the one of [make]. *)
Lemma Load_panic_message disk vm msg :
  (Load disk vm).2 = Panicked msg -> msg = "makeslice: len out of range".
Proof.
  unfold Load. destruct (disk !! _) as [file|]; [|discriminate].
  destruct (Load_loop_explained file (buffer vm)) as (frames & _ & _ & Hex).
  destruct (Load_loop file (buffer vm)) as [[buf log] out]. cbn in *.
  intros ->. now destruct Hex.
Qed.

Lemma LoadAll_values disk m r :
  In r (map_to_list (Load disk <$> Store m)).*2 <->
  exists k vm, Store m !! k = Some vm /\ r = Load disk vm.
Proof.
  rewrite <- list_elem_of_In, list_elem_of_fmap. split.
  - intros ([k r'] & -> & Hin). apply elem_of_map_to_list in Hin.
    rewrite lookup_fmap in Hin. destruct (Store m !! k) as [vm|] eqn:Hk; [|discriminate].
    injection Hin as <-. eauto.
  - intros (k & vm & Hk & ->). exists (k, Load disk vm). split; [reflexivity|].
    apply elem_of_map_to_list. rewrite lookup_fmap, Hk. reflexivity.
Qed.

Lemma LoadAll_panics disk m k vm msg :
  Store m !! k = Some vm ->
  (Load disk vm).2 = Panicked msg ->
  (LoadAll disk m).2 = Panicked "makeslice: len out of range".
Proof.
  intros Hk Hout. unfold LoadAll.
  destruct (List.find _ _) as [r|] eqn:Hfind; cbn [snd].
  - apply find_some in Hfind as [Hin Hpanic].
    apply LoadAll_values in Hin as (k' & vm' & Hk' & ->).
    destruct (Load disk vm').2 as [err|msg'] eqn:Hout'; [discriminate|].
    now rewrite (Load_panic_message disk vm' msg' Hout').
  - exfalso.
    assert (Hin : In (Load disk vm) (map_to_list (Load disk <$> Store m)).*2)
      by (apply LoadAll_values; eauto).
    pose proof (find_none _ _ Hfind _ Hin) as Hf. cbn in Hf.
    now rewrite Hout in Hf.
Qed.

(** X6.  [LoadAll] panics exactly when [Load] panics on one of the memos of the
    store; otherwise it returns [nil], whatever the single [Load] calls
    returned. *)
Theorem LoadAll_outcome (disk : Disk) (m : VoiceMemoManager) :
  ((LoadAll disk m).2 = Panicked "makeslice: len out of range" <->
   exists k vm msg, Store m !! k = Some vm /\ (Load disk vm).2 = Panicked msg) /\
  ((LoadAll disk m).2 = Returned None <->
   forall k vm msg, Store m !! k = Some vm -> (Load disk vm).2 <> Panicked msg).
Proof.
  unfold LoadAll.
  destruct (List.find _ _) as [r|] eqn:Hfind; cbn [snd].
  - apply find_some in Hfind as [Hin Hpanic].
    apply LoadAll_values in Hin as (k & vm & Hk & ->).
    destruct (Load disk vm).2 as [err|msg] eqn:Hout; [discriminate|].
    pose proof (Load_panic_message disk vm msg Hout) as ->.
    split; split; try discriminate.
    + intros _. eauto.
    + reflexivity.
    + intros Hno. exfalso. exact (Hno k vm _ Hk Hout).
  - split; split; try discriminate; try reflexivity.
    + intros (k & vm & msg & Hk & Hout). exfalso.
      assert (Hin : In (Load disk vm) (map_to_list (Load disk <$> Store m)).*2)
        by (apply LoadAll_values; eauto).
      pose proof (find_none _ _ Hfind _ Hin) as Hf. cbn in Hf.
      now rewrite Hout in Hf.
    + intros _ k vm msg Hk Hout.
      assert (Hin : In (Load disk vm) (map_to_list (Load disk <$> Store m)).*2)
        by (apply LoadAll_values; eauto).
      pose proof (find_none _ _ Hfind _ Hin) as Hf. cbn in Hf.
      now rewrite Hout in Hf.
Qed.

(** ** Startup *)

Lemma main_serving ne oe disk b tr :
  main ne oe (Some disk) = (Serving b, tr) ->
  exists m0,
    NewVoiceMemoManager (Some disk) = (inl m0, []) /\
    b = NewBot (LoadAll disk m0).1.1 /\
    (LoadAll disk m0).2 = Returned None.
Proof.
  unfold main. destruct ne; [discriminate|].
  cbn [NewVoiceMemoManager default from_option id].
  set (m0 := mkVoiceMemoManager _).
  destruct (LoadAll disk m0) as [[loaded lines] out] eqn:HL.
  destruct out as [err|msg]; [|discriminate]. cbv zeta.
  destruct oe; [discriminate|]. intros [= <- <-].
  exists m0. split; [reflexivity|]. split; [now rewrite HL|].
  pose proof (LoadAll_no_error disk m0) as Hno. rewrite HL in *. cbn in *.
  destruct err as [e|]; [now destruct (Hno e)|reflexivity].
Qed.

(** X7.  When [main] gets to serve, the bot has no session, and every file
    [<n>.dca] of the directory that is made of complete records (at most
    32767 payload bytes each), with a name [n] without dot, is found by
    [Get] under [n] with exactly its frames. *)
Theorem main_loads_clip (ne oe : option error) (disk : Disk) (b : Bot)
    (tr : list Event) (n : string) (frames : list (list byte)) :
  main ne oe (Some disk) = (Serving b, tr) ->
  disk !! (n +:+ ".dca") = Some (encode frames) ->
  Split_dot_0 n = n ->
  fits_int16 frames ->
  GuildSessions b = ∅ /\ Get (Manager b) n = Some (mkVoiceMemo n frames).
Proof.
  intros Hmain Hfile Hn Hfit.
  destruct (main_serving _ _ _ _ _ Hmain) as (m0 & Hnew & -> & _).
  split; [reflexivity|]. unfold Get. cbn [Manager NewBot].
  rewrite LoadAll_lookup.
  destruct (NewVoiceMemoManager_entry disk (n +:+ ".dca")) as (m1 & Hnew1 & Hentry);
    [eauto|].
  rewrite Hnew in Hnew1. injection Hnew1 as <-.
  change (n +:+ ".dca") with (n +:+ "." +:+ "dca") in Hentry.
  rewrite (Split_dot_0_extension n "dca" Hn) in Hentry. rewrite Hentry.
  cbn [fmap option_fmap option_map].
  rewrite (Load_lookup disk (mkVoiceMemo n []) (encode frames) Hfile).
  cbn [name buffer fst]. now rewrite Load_loop_encode_all.
Qed.

Lemma main_loads_clip_witness :
  let b := match (main None None (Some Demo.disk)).1 with
           | Serving b => b
           | _ => NewBot (mkVoiceMemoManager ∅)
           end in
  GuildSessions b = ∅ /\ Get (Manager b) "good" = Some (mkVoiceMemo "good" [[x41]]).
Proof.
  intros b.
  apply (main_loads_clip None None Demo.disk b
           (main None None (Some Demo.disk)).2
           "good" [[x41]]).
  - vm_compute. reflexivity.
  - vm_compute. reflexivity.
  - reflexivity.
  - unfold fits_int16. repeat constructor; simpl; lia.
Defined.

(** X8.  One file is enough to stop the startup: when a file [<n>.dca] of the
    directory, [n] without dot, holds after complete records a length
    prefix with the high bit set, [main] dies of the panic of [make],
    whatever the other files are and whatever was printed before. *)
Theorem main_crashes_on_high_bit (oe : option error) (disk : Disk) (n : string)
    (frames : list (list byte)) (b0 b1 : byte) (rest : list byte) :
  disk !! (n +:+ ".dca") = Some (encode frames ++ b0 :: b1 :: rest) ->
  Split_dot_0 n = n ->
  fits_int16 frames ->
  128 <= byte_Z b1 ->
  (main None oe (Some disk)).1 = Crashed "makeslice: len out of range".
Proof.
  intros Hfile Hn Hfit Hhigh. unfold main.
  cbn [NewVoiceMemoManager default from_option id].
  set (m0 := mkVoiceMemoManager _).
  assert (Hentry : Store m0 !! n = Some (mkVoiceMemo n [])).
  { destruct (NewVoiceMemoManager_entry disk (n +:+ ".dca")) as (m1 & Hnew1 & Hentry);
      [eauto|].
    injection Hnew1 as <-.
    change (n +:+ ".dca") with (n +:+ "." +:+ "dca") in Hentry.
    now rewrite (Split_dot_0_extension n "dca" Hn) in Hentry. }
  assert (Hpanic : (Load disk (mkVoiceMemo n [])).2 =
                   Panicked "makeslice: len out of range").
  { rewrite (Load_lookup disk (mkVoiceMemo n []) _ Hfile). cbn [name buffer snd].
    rewrite Load_loop_encode by exact Hfit.
    now rewrite Load_loop_negative_length. }
  assert (HL : (LoadAll disk m0).2 = Panicked "makeslice: len out of range").
  { exact (LoadAll_panics disk m0 n _ _ Hentry Hpanic). }
  cbv zeta. destruct (LoadAll disk m0) as [[loaded lines] out]. cbn in HL. now rewrite HL.
Qed.

Lemma main_crashes_on_high_bit_witness :
  (main None None (Some Demo.disk_loud)).1 = Crashed "makeslice: len out of range".
Proof.
  apply (main_crashes_on_high_bit None Demo.disk_loud "loud" [] x00 x80 []).
  - vm_compute. reflexivity.
  - reflexivity.
  - constructor.
  - vm_compute. discriminate.
Defined.

(** ** Playing on a live connection *)

Lemma send_buffer_live frames : forall vc,
  VC_OpusCredit vc = None ->
  send_buffer vc frames = (vc, OpusSend (VC_GuildID vc) <$> frames, Done).
Proof.
  induction frames as [|buff frames IH]; intros [g ch credit] Hlive; [reflexivity|].
  cbn in Hlive. subst credit. cbn [send_buffer VC_OpusCredit fmap option_fmap option_map].
  change (mkVoiceConnection (VC_GuildID (mkVoiceConnection g ch None))
            (VC_ChannelID (mkVoiceConnection g ch None)) None)
    with (mkVoiceConnection g ch None).
  now rewrite IH.
Qed.

Lemma drain_live queue : forall vc,
  VC_OpusCredit vc = None ->
  drain vc queue =
  (vc, [],
   concat ((fun vm => (OpusSend (VC_GuildID vc) <$> buffer vm) ++ [Sleep 100]) <$> queue),
   Done).
Proof.
  induction queue as [|dequeued queue IH]; intros vc Hlive; [reflexivity|].
  cbn [drain]. rewrite send_buffer_live by exact Hlive.
  rewrite IH by exact Hlive. cbn [fmap list_fmap concat].
  now rewrite <- app_assoc.
Qed.

Lemma PlayFromQueue_live gs :
  IsVoicePlaying gs = false ->
  VC_OpusCredit (VoiceConnection gs) = None ->
  PlayFromQueue gs =
  (mkGuildSession (ID gs) (GuildName gs) (VoiceConnection gs)
     (mkChan (chan_cap (PlayQueue gs)) []) false,
   drain_trace (VC_GuildID (VoiceConnection gs)) (chan_buf (PlayQueue gs)),
   Done).
Proof.
  intros Hidle Hlive. unfold PlayFromQueue. rewrite Hidle.
  now rewrite drain_live by exact Hlive.
Qed.

Lemma frames_of_OpusSend guild frames : frames_of (OpusSend guild <$> frames) = frames.
Proof.
  induction frames as [|f frames IH]; [reflexivity|].
  rewrite fmap_cons. change (frames_of (OpusSend guild f :: ?l)) with (f :: frames_of l).
  now rewrite IH.
Qed.

Lemma frames_of_drain_trace guild queue :
  frames_of (drain_trace guild queue) = concat (buffer <$> queue).
Proof.
  unfold drain_trace. change (frames_of (Speaking guild true :: ?l)) with (frames_of l).
  rewrite frames_of_app. change (frames_of [Speaking guild false]) with (@nil (list byte)).
  rewrite app_nil_r.
  induction queue as [|vm queue IH]; [reflexivity|].
  rewrite !fmap_cons. cbn [concat]. rewrite !frames_of_app, IH, frames_of_OpusSend.
  change (frames_of [Sleep 100]) with (@nil (list byte)). now rewrite app_nil_r.
Qed.

Lemma HandlePlay_live s g c fileName b gs vm :
  GuildSessions b !! Guild_ID g = Some gs ->
  IsVoicePlaying gs = false ->
  VC_OpusCredit (VoiceConnection gs) = None ->
  (length (chan_buf (PlayQueue gs)) < chan_cap (PlayQueue gs))%nat ->
  Get (Manager b) fileName = Some vm ->
  HandlePlay s g c fileName b =
  (set_session b (Guild_ID g)
     (mkGuildSession (ID gs) (GuildName gs) (VoiceConnection gs)
        (mkChan (chan_cap (PlayQueue gs)) []) false),
   drain_trace (VC_GuildID (VoiceConnection gs)) (chan_buf (PlayQueue gs) ++ [vm]),
   Done).
Proof.
  intros Hreg Hidle Hlive Hroom Hget.
  unfold HandlePlay. rewrite Hreg, Hget, Enqueue_room by exact Hroom.
  rewrite PlayFromQueue_live by assumption. reflexivity.
Qed.

(** X9.  A play for a joined tenant whose session is idle, has room in its queue
    and a live connection, of a clip that the catalog has: the clip is
    queued behind what the queue holds, and the whole queue is drained in
    one speaking period, clip after clip in queue order, the frames of
    each clip in buffer order, with a pause of 100 ms after each clip.  The
    session is left idle with an empty queue. *)
Theorem HandlePlay_drains_queue (s : Session) (g : Guild) (c : Channel)
    (fileName : string) (b : Bot) (gs : GuildSession) (vm : VoiceMemo) :
  GuildSessions b !! Guild_ID g = Some gs ->
  IsVoicePlaying gs = false ->
  VC_OpusCredit (VoiceConnection gs) = None ->
  (length (chan_buf (PlayQueue gs)) < chan_cap (PlayQueue gs))%nat ->
  Get (Manager b) fileName = Some vm ->
  let r := HandlePlay s g c fileName b in
  r.2 = Done /\
  r.1.2 = drain_trace (VC_GuildID (VoiceConnection gs)) (chan_buf (PlayQueue gs) ++ [vm]) /\
  frames_of r.1.2 = concat (buffer <$> chan_buf (PlayQueue gs)) ++ buffer vm /\
  r.1.1 = set_session b (Guild_ID g)
            (mkGuildSession (ID gs) (GuildName gs) (VoiceConnection gs)
               (mkChan (chan_cap (PlayQueue gs)) []) false).
Proof.
  intros Hreg Hidle Hlive Hroom Hget r.
  unfold r. rewrite (HandlePlay_live s g c fileName b gs vm) by assumption.
  cbn [fst snd]. repeat split.
  rewrite frames_of_drain_trace, fmap_app, concat_app. cbn. now rewrite app_nil_r.
Qed.

Lemma HandlePlay_drains_queue_witness :
  let r := HandlePlay Demo.session Demo.guild Demo.channel "a" Demo.bot_joined in
  r.2 = Done /\
  r.1.2 = [Speaking "g" true; OpusSend "g" [x41]; OpusSend "g" [x42]; Sleep 100;
           Speaking "g" false] /\
  frames_of r.1.2 = [[x41]; [x42]] /\
  r.1.1 = Demo.bot_joined.
Proof.
  intros r.
  pose proof (HandlePlay_drains_queue Demo.session Demo.guild Demo.channel "a"
                Demo.bot_joined
                (mkGuildSession "g" "Guild" (mkVoiceConnection "g" "v1" None)
                   (mkChan 10 []) false)
                Demo.clip_a eq_refl eq_refl eq_refl) as H.
  cbn [PlayQueue chan_buf chan_cap length] in H.
  specialize (H ltac:(lia) eq_refl).
  destruct H as (H1 & H2 & H3 & H4).
  split; [exact H1|]. split; [exact H2|]. split; [exact H3|].
  unfold r. rewrite H4. vm_compute. reflexivity.
Defined.

(** X10.  Two plays in a row for a joined tenant with an idle, empty session and
    a live connection, of two clips that the catalog has: the connection
    receives the frames of the first clip and then the frames of the second,
    each clip in a speaking period of its own, and the session is idle and
    empty again after each play. *)
Theorem HandlePlay_twice (s : Session) (g : Guild) (c : Channel)
    (file1 file2 : string) (b : Bot) (gs : GuildSession) (vm1 vm2 : VoiceMemo) :
  GuildSessions b !! Guild_ID g = Some gs ->
  IsVoicePlaying gs = false ->
  VC_OpusCredit (VoiceConnection gs) = None ->
  chan_buf (PlayQueue gs) = [] ->
  (0 < chan_cap (PlayQueue gs))%nat ->
  Get (Manager b) file1 = Some vm1 ->
  Get (Manager b) file2 = Some vm2 ->
  let r1 := HandlePlay s g c file1 b in
  let r2 := HandlePlay s g c file2 r1.1.1 in
  r1.2 = Done /\ r2.2 = Done /\
  r1.1.2 = drain_trace (VC_GuildID (VoiceConnection gs)) [vm1] /\
  r2.1.2 = drain_trace (VC_GuildID (VoiceConnection gs)) [vm2] /\
  frames_of (r1.1.2 ++ r2.1.2) = buffer vm1 ++ buffer vm2 /\
  GuildSessions r2.1.1 !! Guild_ID g = Some gs.
Proof.
  intros Hreg Hidle Hlive Hempty Hcap Hget1 Hget2 r1 r2.
  assert (Hroom : (length (chan_buf (PlayQueue gs)) < chan_cap (PlayQueue gs))%nat)
    by (rewrite Hempty; cbn; lia).
  assert (Hgs : mkGuildSession (ID gs) (GuildName gs) (VoiceConnection gs)
                  (mkChan (chan_cap (PlayQueue gs)) []) false = gs).
  { destruct gs as [i n v [cap buf] p]. cbn in *. now subst. }
  assert (H1 : r1 = (set_session b (Guild_ID g) gs,
                     drain_trace (VC_GuildID (VoiceConnection gs)) [vm1], Done)).
  { unfold r1. rewrite (HandlePlay_live s g c file1 b gs vm1) by assumption.
    now rewrite Hgs, Hempty. }
  assert (Hreg1 : GuildSessions r1.1.1 !! Guild_ID g = Some gs)
    by (rewrite H1; apply lookup_insert_eq).
  assert (H2 : r2 = (set_session r1.1.1 (Guild_ID g) gs,
                     drain_trace (VC_GuildID (VoiceConnection gs)) [vm2], Done)).
  { unfold r2. rewrite (HandlePlay_live s g c file2 r1.1.1 gs vm2); try assumption.
    - now rewrite Hgs, Hempty.
    - rewrite H1. exact Hget2. }
  rewrite H2. cbn [fst snd]. rewrite H1. cbn [fst snd].
  repeat split.
  - rewrite frames_of_app, !frames_of_drain_trace. cbn. now rewrite !app_nil_r.
  - apply lookup_insert_eq.
Qed.

Lemma HandlePlay_twice_witness :
  let r1 := HandlePlay Demo.session Demo.guild Demo.channel "a" Demo.bot_joined in
  let r2 := HandlePlay Demo.session Demo.guild Demo.channel "b" r1.1.1 in
  frames_of (r1.1.2 ++ r2.1.2) = [[x41]; [x42]; [x43]].
Proof.
  intros r1 r2.
  pose proof (HandlePlay_twice Demo.session Demo.guild Demo.channel "a" "b"
                Demo.bot_joined
                (mkGuildSession "g" "Guild" (mkVoiceConnection "g" "v1" None)
                   (mkChan 10 []) false)
                Demo.clip_a Demo.clip_b eq_refl eq_refl eq_refl eq_refl) as H.
  cbn [PlayQueue chan_cap] in H.
  specialize (H ltac:(lia) eq_refl eq_refl).
  exact (proj1 (proj2 (proj2 (proj2 (proj2 H))))).
Defined.

Lemma messages_of_app tr1 tr2 : messages_of (tr1 ++ tr2) = messages_of tr1 ++ messages_of tr2.
Proof. unfold messages_of. apply omap_app. Qed.

Lemma send_buffer_no_message frames : forall vc,
  messages_of (send_buffer vc frames).1.2 = [].
Proof.
  induction frames as [|buff frames IH]; intros vc; [reflexivity|].
  cbn [send_buffer]. destruct (VC_OpusCredit vc) as [[|n]|]; [reflexivity| |].
  - specialize (IH (mkVoiceConnection (VC_GuildID vc) (VC_ChannelID vc) (Nat.pred <$> Some (S n)))).
    destruct (send_buffer _ frames) as [[vc1 tr1] e1]. exact IH.
  - specialize (IH (mkVoiceConnection (VC_GuildID vc) (VC_ChannelID vc) (Nat.pred <$> None))).
    destruct (send_buffer _ frames) as [[vc1 tr1] e1]. exact IH.
Qed.

Lemma drain_no_message queue : forall vc, messages_of (drain vc queue).1.2 = [].
Proof.
  induction queue as [|dequeued queue IH]; intros vc; [reflexivity|].
  cbn [drain]. pose proof (send_buffer_no_message (buffer dequeued) vc) as Hs.
  destruct (send_buffer vc (buffer dequeued)) as [[vc1 tr1] e1]. cbn [fst snd] in Hs.
  destruct e1; try exact Hs.
  specialize (IH vc1). destruct (drain vc1 queue) as [[[vc2 rest] tr2] e2].
  cbn [fst snd] in IH |- *. rewrite messages_of_app, Hs.
  change (messages_of (Sleep 100 :: tr2)) with (messages_of tr2). exact IH.
Qed.

Lemma PlayFromQueue_no_message gs : messages_of (PlayFromQueue gs).1.2 = [].
Proof.
  unfold PlayFromQueue. destruct (IsVoicePlaying gs); [reflexivity|].
  pose proof (drain_no_message (chan_buf (PlayQueue gs)) (VoiceConnection gs)) as Hd.
  destruct (drain _ _) as [[[vc1 rest] tr1] e1]. cbn [fst snd] in Hd.
  destruct e1; cbn [fst snd];
    change (messages_of (Speaking ?g ?on :: ?l)) with (messages_of l);
    try exact Hd.
  rewrite messages_of_app, Hd. reflexivity.
Qed.

Lemma Enqueue_no_message gs vm : messages_of (Enqueue gs vm).2 = [].
Proof.
  unfold Enqueue.
  now destruct (length (chan_buf (PlayQueue gs)) <? chan_cap (PlayQueue gs))%nat.
Qed.

(** X11.  What a play never does.  It puts frames on the connection only when
    the tenant has a session that is not playing and the catalog has the
    clip.  It writes to the chat only when the tenant has a session and the
    clip is missing: the one message is "Cannot find <name>", and the bot
    is unchanged then.  So neither a tenant that has not joined nor a
    requester whose clip was dropped from a full queue is told anything in
    the chat. *)
Theorem HandlePlay_silent (s : Session) (g : Guild) (c : Channel)
    (fileName : string) (b : Bot) :
  let r := HandlePlay s g c fileName b in
  (frames_of r.1.2 <> [] ->
   exists gs vm,
     GuildSessions b !! Guild_ID g = Some gs /\ IsVoicePlaying gs = false /\
     Get (Manager b) fileName = Some vm) /\
  (messages_of r.1.2 <> [] ->
   is_Some (GuildSessions b !! Guild_ID g) /\
   Get (Manager b) fileName = None /\
   messages_of r.1.2 = [(Channel_ID c, "Cannot find " +:+ fileName)] /\
   frames_of r.1.2 = [] /\
   r.1.1 = b /\ r.2 = Done).
Proof.
  intros r. unfold r, HandlePlay.
  destruct (GuildSessions b !! Guild_ID g) as [gs|] eqn:Hreg.
  2:{ cbn. split; intros H; now destruct H. }
  destruct (Get (Manager b) fileName) as [vm|] eqn:Hget.
  2:{ cbn. split; [intros H; now destruct H|]. intros _. eauto 10. }
  pose proof (Enqueue_keeps_flag gs vm) as [Hflag Hnone].
  pose proof (Enqueue_no_message gs vm) as Hmsg.
  destruct (Enqueue gs vm) as [gs1 tr1]. cbn [fst snd] in *.
  pose proof (PlayFromQueue_no_message gs1) as Hmsg2.
  destruct (IsVoicePlaying gs) eqn:Hidle.
  - rewrite PlayFromQueue_playing in * by congruence. cbn [fst snd] in *. split.
    + rewrite frames_of_app, Hnone. intros H. now destruct H.
    + rewrite messages_of_app, Hmsg. intros H. now destruct H.
  - destruct (PlayFromQueue gs1) as [[gs2 tr2] e]. cbn [fst snd] in *. split.
    + intros _. eauto.
    + rewrite messages_of_app, Hmsg, Hmsg2. intros H. now destruct H.
Qed.

(** X12.  A play on a session that is playing and whose queue is full drops the
    clip: the bot is unchanged, nothing is sent and nothing is written to
    the chat; the console gets the line about the full queue and, right
    after it, the line that the memo is being added to the queue. *)
Theorem HandlePlay_queue_full (s : Session) (g : Guild) (c : Channel)
    (fileName : string) (b : Bot) (gs : GuildSession) (vm : VoiceMemo) :
  GuildSessions b !! Guild_ID g = Some gs ->
  IsVoicePlaying gs = true ->
  (chan_cap (PlayQueue gs) <= length (chan_buf (PlayQueue gs)))%nat ->
  Get (Manager b) fileName = Some vm ->
  HandlePlay s g c fileName b =
  (b,
   [Println [AStr "Queue is currently full. Try again later. Queue count: ";
             AInt (Z.of_nat (length (chan_buf (PlayQueue gs))))];
    Println [AStr "Your voice memo is being added to the queue."]],
   Done).
Proof.
  intros Hreg Hplaying Hfull Hget. unfold HandlePlay.
  rewrite Hreg, Hget, Enqueue_full by exact Hfull.
  rewrite PlayFromQueue_playing by exact Hplaying.
  unfold set_session. rewrite insert_id by exact Hreg. now destruct b.
Qed.

Lemma HandlePlay_queue_full_witness :
  let gs := mkGuildSession "g" "Guild" (mkVoiceConnection "g" "v1" (Some 0%nat))
              (mkChan 2 [Demo.clip_a; Demo.clip_b]) true in
  let b := set_session Demo.bot "g" gs in
  HandlePlay Demo.session Demo.guild Demo.channel "a" b =
  (b,
   [Println [AStr "Queue is currently full. Try again later. Queue count: "; AInt 2];
    Println [AStr "Your voice memo is being added to the queue."]],
   Done).
Proof.
  intros gs b.
  apply (HandlePlay_queue_full Demo.session Demo.guild Demo.channel "a" b gs Demo.clip_a).
  - reflexivity.
  - reflexivity.
  - cbn. lia.
  - reflexivity.
Defined.

(** X13.  Leaving and joining again gives a fresh session, whatever state the
    old one was in: the old connection is disconnected, its queued clips
    and its playing flag are gone, and the new session is idle with an
    empty queue of capacity 10 on the new connection. *)
Theorem leave_join_resets (s : Session) (g : Guild) (c : Channel)
    (m : MessageCreate) (b : Bot) (old : GuildSession) (vs : VoiceState)
    (vc : discordgo.VoiceConnection) :
  GuildSessions b !! Guild_ID g = Some old ->
  voice_state_of g m = Some vs ->
  ChannelVoiceJoin s (Guild_ID g) (VS_ChannelID vs) = inl vc ->
  let left := HandleLeave s g b in
  let joined := HandleJoin s g c m left.1 in
  left.2 = [VoiceDisconnect (VC_GuildID (VoiceConnection old))] /\
  GuildSessions left.1 !! Guild_ID g = None /\
  GuildSessions joined.1 !! Guild_ID g =
    Some (mkGuildSession (Guild_ID g) (Guild_Name g) vc (mkChan 10 []) false) /\
  (forall k, k <> Guild_ID g ->
     GuildSessions joined.1 !! k = GuildSessions b !! k) /\
  Manager joined.1 = Manager b.
Proof.
  intros Hreg Hvs Hvc left joined.
  assert (Hleft : left = (mkBot (delete (Guild_ID g) (GuildSessions b)) (Manager b),
                          [VoiceDisconnect (VC_GuildID (VoiceConnection old))]))
    by exact (HandleLeave_joined s g b old Hreg).
  assert (Hnone : GuildSessions left.1 !! Guild_ID g = None)
    by (rewrite Hleft; apply lookup_delete_eq).
  assert (Hjoined : joined.1 = set_session left.1 (Guild_ID g)
                      (mkGuildSession (Guild_ID g) (Guild_Name g) vc (mkChan 10 []) false)).
  { unfold joined. now rewrite (HandleJoin_success s g c m left.1 vs vc Hnone Hvs Hvc). }
  split; [now rewrite Hleft|]. split; [exact Hnone|]. split; [|split].
  - rewrite Hjoined. apply lookup_insert_eq.
  - intros k Hk. rewrite Hjoined, Hleft. cbn [set_session GuildSessions fst].
    rewrite lookup_insert_ne by congruence. now rewrite lookup_delete_ne by congruence.
  - rewrite Hjoined, Hleft. reflexivity.
Qed.

Lemma leave_join_resets_witness :
  let stuck := mkGuildSession "g" "Guild" (mkVoiceConnection "g" "v1" (Some 0%nat))
                 (mkChan 10 [Demo.clip_a]) true in
  let b := set_session Demo.bot "g" stuck in
  let left := HandleLeave Demo.session Demo.guild b in
  let joined := HandleJoin Demo.session Demo.guild Demo.channel
                  (Demo.message "u1" "!join") left.1 in
  left.2 = [VoiceDisconnect "g"] /\
  GuildSessions left.1 !! "g" = None /\
  GuildSessions joined.1 !! "g" =
    Some (mkGuildSession "g" "Guild" (mkVoiceConnection "g" "v1" None) (mkChan 10 []) false) /\
  (forall k, k <> "g" -> GuildSessions joined.1 !! k = GuildSessions b !! k) /\
  Manager joined.1 = Manager b.
Proof.
  intros stuck b.
  apply (leave_join_resets Demo.session Demo.guild Demo.channel
           (Demo.message "u1" "!join") b stuck (mkVoiceState "u1" "v1")
           (mkVoiceConnection "g" "v1" None)); reflexivity.
Defined.

(** ** What a command does to the bot *)

Lemma HandleJoin_effect s g c m b :
  (HandleJoin s g c m b).1 = b \/
  (GuildSessions b !! Guild_ID g = None /\
   exists vc,
     (HandleJoin s g c m b).1 =
     set_session b (Guild_ID g)
       (mkGuildSession (Guild_ID g) (Guild_Name g) vc (mkChan 10 []) false)).
Proof.
  destruct (GuildSessions b !! Guild_ID g) as [gs|] eqn:Hreg.
  - left. now rewrite (HandleJoin_joined s g c m b gs Hreg).
  - destruct (voice_state_of g m) as [vs|] eqn:Hvs.
    + destruct (ChannelVoiceJoin s (Guild_ID g) (VS_ChannelID vs)) as [vc|err] eqn:Hvc.
      * right. split; [reflexivity|]. exists vc.
        now rewrite (HandleJoin_success s g c m b vs vc Hreg Hvs Hvc).
      * left. now rewrite (HandleJoin_no_connection s g c m b vs err Hreg Hvs Hvc).
    + left. now rewrite (HandleJoin_not_in_voice s g c m b Hreg Hvs).
Qed.

Lemma HandleLeave_effect s g b :
  (HandleLeave s g b).1 = b \/
  (HandleLeave s g b).1 = mkBot (delete (Guild_ID g) (GuildSessions b)) (Manager b).
Proof.
  unfold HandleLeave. destruct (GuildSessions b !! Guild_ID g); [now right|now left].
Qed.

Lemma send_buffer_Done_or_Blocks frames : forall vc,
  (send_buffer vc frames).2 = Done \/ (send_buffer vc frames).2 = Blocks.
Proof.
  intros vc. destruct (send_buffer vc frames) as [[vc1 tr1] e1] eqn:H.
  destruct (send_buffer_spec _ _ _ _ _ H) as [[-> _]|[-> _]]; [now left|now right].
Qed.

(** The drain loop takes clips from the front of the queue only. *)
Lemma drain_rest queue : forall vc,
  (length (drain vc queue).1.1.2 <= length queue)%nat.
Proof.
  induction queue as [|dequeued queue IH]; intros vc; [reflexivity|].
  cbn [drain]. destruct (send_buffer vc (buffer dequeued)) as [[vc1 tr1] e1].
  specialize (IH vc1).
  destruct e1; cbn [fst snd length]; try lia.
  destruct (drain vc1 queue) as [[[vc2 rest] tr2] e2]. cbn [fst snd] in *. lia.
Qed.

Lemma PlayFromQueue_shape gs :
  let gs' := (PlayFromQueue gs).1.1 in
  ID gs' = ID gs /\ GuildName gs' = GuildName gs /\
  chan_cap (PlayQueue gs') = chan_cap (PlayQueue gs) /\
  (length (chan_buf (PlayQueue gs')) <= length (chan_buf (PlayQueue gs)))%nat.
Proof.
  unfold PlayFromQueue. destruct (IsVoicePlaying gs); [cbn; repeat split; lia|].
  pose proof (drain_rest (chan_buf (PlayQueue gs)) (VoiceConnection gs)) as Hrest.
  destruct (drain _ _) as [[[vc1 rest] tr1] e1]. cbn [fst snd] in Hrest.
  destruct e1; cbn; repeat split; exact Hrest.
Qed.

Lemma Enqueue_shape gs vm :
  ID (Enqueue gs vm).1 = ID gs /\
  chan_cap (PlayQueue (Enqueue gs vm).1) = chan_cap (PlayQueue gs).
Proof.
  unfold Enqueue.
  now destruct (length (chan_buf (PlayQueue gs)) <? chan_cap (PlayQueue gs))%nat.
Qed.

Lemma HandlePlay_effect s g c fileName b :
  (HandlePlay s g c fileName b).1.1 = b \/
  exists gs gs',
    GuildSessions b !! Guild_ID g = Some gs /\
    (HandlePlay s g c fileName b).1.1 = set_session b (Guild_ID g) gs' /\
    ID gs' = ID gs /\
    chan_cap (PlayQueue gs') = chan_cap (PlayQueue gs) /\
    ((length (chan_buf (PlayQueue gs)) <= chan_cap (PlayQueue gs))%nat ->
     (length (chan_buf (PlayQueue gs')) <= chan_cap (PlayQueue gs))%nat).
Proof.
  unfold HandlePlay. destruct (GuildSessions b !! Guild_ID g) as [gs|] eqn:Hreg; [|now left].
  destruct (Get (Manager b) fileName) as [vm|]; [|now left].
  right. exists gs.
  pose proof (Enqueue_shape gs vm) as [Hid Hcap].
  pose proof (Enqueue_within_capacity gs vm) as Hlen.
  destruct (Enqueue gs vm) as [gs1 tr1]. cbn [fst snd] in *.
  pose proof (PlayFromQueue_shape gs1) as (Hid2 & _ & Hcap2 & Hlen2).
  destruct (PlayFromQueue gs1) as [[gs2 tr2] e]. cbn [fst snd] in *.
  exists gs2. split; [reflexivity|]. split; [reflexivity|].
  split; [congruence|]. split; [congruence|]. intros H. specialize (Hlen H). lia.
Qed.

Lemma HandleUpload_effect env s m b disk :
  (HandleUpload env s m b disk).1.1.1 = b \/
  exists fileName vm,
    name vm = Split_dot_0 fileName /\
    (HandleUpload env s m b disk).1.1.1 =
    mkBot (GuildSessions b)
      (mkVoiceMemoManager (<[Split_dot_0 fileName := vm]> (Store (Manager b)))).
Proof.
  unfold HandleUpload. destruct (Attachments m) as [|att rest]; [now left|].
  destruct (http_Get env (Att_URL att)) as [body|]; [|now left].
  destruct (os_Create_ok env (Att_Filename att)); [|now left].
  destruct (io_Copy_ok env); [|now left].
  destruct (os_Create_ok env _); [|now left]. cbn [negb].
  match goal with |- context [Load ?d ?v] =>
    pose proof (Load_name d v) as Hname; destruct (Load d v) as [[vm log] out] end.
  destruct out; [|now left]. right. exists (Att_Filename att), vm. now split.
Qed.

(** The bot after a command is the bot before it, or the bot after the
    handler of the command's guild, or the bot after the upload. *)
Lemma CommandCenter_effect env s m b disk :
  let b' := (CommandCenter env s m b disk).1.1.1 in
  b' = b \/
  b' = (HandleUpload env s m b disk).1.1.1 \/
  exists c g,
    State_Channel s (ChannelID m) = Some c /\
    State_Guild s (Channel_GuildID c) = Some g /\
    (b' = (HandleJoin s g c m b).1 \/ b' = (HandleLeave s g b).1 \/
     exists fileName, b' = (HandlePlay s g c fileName b).1.1).
Proof.
  unfold CommandCenter.
  destruct (String.eqb (Author_ID m) (State_User_ID s)); [now left|].
  destruct (State_Channel s (ChannelID m)) as [c|] eqn:Hc; [|now left].
  destruct (State_Guild s (Channel_GuildID c)) as [g|] eqn:Hg; [|now left].
  destruct (HasPrefix (Content m) "!"); [|now left].
  destruct (Fields (Content m) !! 0%nat) as [arg0|]; [|now left].
  destruct (String.eqb (TrimPrefix arg0 "!") "join").
  { right. right. exists c, g. split; [reflexivity|]. split; [exact Hg|].
    left. now destruct (HandleJoin s g c m b). }
  destruct (String.eqb (TrimPrefix arg0 "!") "leave").
  { right. right. exists c, g. split; [reflexivity|]. split; [exact Hg|].
    right. left. now destruct (HandleLeave s g b). }
  destruct (String.eqb (TrimPrefix arg0 "!") "play").
  { destruct (Fields (Content m) !! 1%nat) as [arg1|]; [|now left].
    right. right. exists c, g. split; [reflexivity|]. split; [exact Hg|].
    right. right. exists (TrimPrefix arg1 "-").
    now destruct (HandlePlay s g c (TrimPrefix arg1 "-") b) as [[? ?] ?]. }
  destruct (String.eqb (TrimPrefix arg0 "!") "list"); [now left|].
  destruct (String.eqb (TrimPrefix arg0 "!") "upload").
  { right. left. now destruct (HandleUpload env s m b disk) as [[[? ?] ?] ?]. }
  destruct (String.eqb (TrimPrefix arg0 "!") "record"); now left.
Qed.

(** ** Invariants of the reachable states *)

Lemma catalog_named_main ne oe disk b tr :
  main ne oe (Some disk) = (Serving b, tr) -> catalog_named (Manager b).
Proof.
  intros Hmain. destruct (main_serving _ _ _ _ _ Hmain) as (m0 & Hnew & -> & _).
  intros k vm Hk. cbn [Manager NewBot] in Hk. rewrite LoadAll_lookup in Hk.
  destruct (Store m0 !! k) as [vm0|] eqn:Hk0; [|discriminate].
  injection Hk as <-.
  pose proof (NewVoiceMemoManager_origin disk m0 k vm0 Hnew Hk0) as H0.
  destruct H0 as (-> & f & _ & <-). rewrite Load_name. cbn [name].
  split; [reflexivity|apply Split_dot_0_idem].
Qed.

Lemma catalog_named_command env s m b disk :
  catalog_named (Manager b) ->
  catalog_named (Manager (CommandCenter env s m b disk).1.1.1).
Proof.
  intros Hinv.
  destruct (CommandCenter_effect env s m b disk) as [->|[->|(c & g & _ & _ & H)]].
  - exact Hinv.
  - destruct (HandleUpload_effect env s m b disk) as [->|(f & vm & Hname & ->)];
      [exact Hinv|].
    intros k vm' Hk. cbn [Manager Store] in Hk.
    destruct (decide (Split_dot_0 f = k)) as [<-|Hne].
    + rewrite lookup_insert_eq in Hk. injection Hk as <-.
      split; [exact Hname|apply Split_dot_0_idem].
    + rewrite lookup_insert_ne in Hk by exact Hne. now apply Hinv.
  - destruct H as [->|[->|(f & ->)]].
    + destruct (HandleJoin_effect s g c m b) as [->|(_ & vc & ->)]; exact Hinv.
    + destruct (HandleLeave_effect s g b) as [->| ->]; exact Hinv.
    + destruct (HandlePlay_effect s g c f b) as [->|(gs & gs' & _ & -> & _)]; exact Hinv.
Qed.

(** X14.  In every state the program reaches, each clip of the catalog is stored
    under its own name and the name has no dot: [Get n] returns a memo
    named [n] or nothing, and a name with a dot is never found. *)
Theorem reachable_catalog_named (disk0 : Disk) (b : Bot) (disk : Disk) :
  reachable disk0 b disk ->
  catalog_named (Manager b) /\
  forall n, Split_dot_0 n <> n -> Get (Manager b) n = None.
Proof.
  intros Hreach.
  assert (Hinv : catalog_named (Manager b)).
  { induction Hreach as [ne oe b tr Hmain|b disk env s m _ IH].
    - exact (catalog_named_main _ _ _ _ _ Hmain).
    - now apply catalog_named_command. }
  split; [exact Hinv|]. intros n Hn. unfold Get.
  destruct (Store (Manager b) !! n) as [vm|] eqn:Hk; [|reflexivity].
  now destruct (Hinv n vm Hk).
Qed.

Lemma reachable_catalog_named_witness :
  let b := match (main None None (Some Demo.disk)).1 with
           | Serving b => b
           | _ => NewBot (mkVoiceMemoManager ∅)
           end in
  let b' := (CommandCenter Demo.env Demo.session (Demo.upload_message "new.a.mp3")
               b Demo.disk).1.1.1 in
  catalog_named (Manager b') /\
  forall n, Split_dot_0 n <> n -> Get (Manager b') n = None.
Proof.
  intros b b'.
  apply (reachable_catalog_named Demo.disk b'
           (CommandCenter Demo.env Demo.session (Demo.upload_message "new.a.mp3")
              b Demo.disk).1.1.2).
  apply reachable_command.
  apply (reachable_main Demo.disk None None b
           (main None None (Some Demo.disk)).2).
  vm_compute. reflexivity.
Defined.

Lemma registry_bounded_command env s m b disk :
  registry_bounded b -> registry_bounded (CommandCenter env s m b disk).1.1.1.
Proof.
  intros Hinv.
  destruct (CommandCenter_effect env s m b disk) as [->|[->|(c & g & _ & _ & H)]].
  - exact Hinv.
  - destruct (HandleUpload_effect env s m b disk) as [->|(f & vm & _ & ->)]; exact Hinv.
  - destruct H as [->|[->|(f & ->)]].
    + destruct (HandleJoin_effect s g c m b) as [->|(_ & vc & ->)]; [exact Hinv|].
      intros k gs Hk. cbn [set_session GuildSessions] in Hk.
      destruct (decide (Guild_ID g = k)) as [<-|Hne].
      * rewrite lookup_insert_eq in Hk. injection Hk as <-. cbn. repeat split; lia.
      * rewrite lookup_insert_ne in Hk by exact Hne. now apply Hinv.
    + destruct (HandleLeave_effect s g b) as [->| ->]; [exact Hinv|].
      intros k gs Hk. cbn [GuildSessions] in Hk.
      apply lookup_delete_Some in Hk as [_ Hk]. now apply Hinv.
    + destruct (HandlePlay_effect s g c f b)
        as [->|(gs & gs' & Hreg & -> & Hid & Hcap & Hlen)]; [exact Hinv|].
      destruct (Hinv _ _ Hreg) as (Hid0 & Hcap0 & Hlen0).
      intros k gs1 Hk. cbn [set_session GuildSessions] in Hk.
      destruct (decide (Guild_ID g = k)) as [<-|Hne].
      * rewrite lookup_insert_eq in Hk. injection Hk as <-.
        split; [congruence|]. split; [congruence|].
        rewrite Hcap0 in Hlen. apply Hlen. lia.
      * rewrite lookup_insert_ne in Hk by exact Hne. now apply Hinv.
Qed.

(** X15.  In every state the program reaches, each session of the registry is
    stored under its own id, and its queue has capacity 10 and holds at
    most 10 clips. *)
Theorem reachable_registry_bounded (disk0 : Disk) (b : Bot) (disk : Disk) :
  reachable disk0 b disk -> registry_bounded b.
Proof.
  intros Hreach. induction Hreach as [ne oe b tr Hmain|b disk env s m _ IH].
  - destruct (main_serving _ _ _ _ _ Hmain) as (m0 & _ & -> & _).
    intros k gs Hk. cbn in Hk. now rewrite lookup_empty in Hk.
  - now apply registry_bounded_command.
Qed.

Lemma reachable_registry_bounded_witness :
  let b := match (main None None (Some Demo.disk)).1 with
           | Serving b => b
           | _ => NewBot (mkVoiceMemoManager ∅)
           end in
  registry_bounded
    (CommandCenter Demo.env Demo.session (Demo.message "u1" "!join") b Demo.disk).1.1.1.
Proof.
  intros b.
  apply (reachable_registry_bounded Demo.disk _
           (CommandCenter Demo.env Demo.session (Demo.message "u1" "!join")
              b Demo.disk).1.1.2).
  apply reachable_command.
  apply (reachable_main Demo.disk None None b
           (main None None (Some Demo.disk)).2).
  vm_compute. reflexivity.
Defined.

(** The registry entries a command leaves alone: those of every guild but
    the one of the channel the message came from. *)
Lemma CommandCenter_other_sessions env s m b disk k :
  (forall c g,
     State_Channel s (ChannelID m) = Some c ->
     State_Guild s (Channel_GuildID c) = Some g ->
     k <> Guild_ID g) ->
  GuildSessions (CommandCenter env s m b disk).1.1.1 !! k = GuildSessions b !! k.
Proof.
  intros Hother.
  destruct (CommandCenter_effect env s m b disk) as [->|[->|(c & g & Hc & Hg & H)]].
  - reflexivity.
  - destruct (HandleUpload_effect env s m b disk) as [->|(f & vm & _ & ->)]; reflexivity.
  - specialize (Hother c g Hc Hg). destruct H as [->|[->|(f & ->)]].
    + destruct (HandleJoin_effect s g c m b) as [->|(_ & vc & ->)]; [reflexivity|].
      cbn [set_session GuildSessions].
      now rewrite lookup_insert_ne by congruence.
    + destruct (HandleLeave_effect s g b) as [->| ->]; [reflexivity|].
      cbn [GuildSessions].
      now rewrite lookup_delete_ne by congruence.
    + destruct (HandlePlay_effect s g c f b) as [->|(gs & gs' & _ & -> & _)];
        [reflexivity|].
      cbn [set_session GuildSessions].
      now rewrite lookup_insert_ne by congruence.
Qed.

(** The catalog after a command is the catalog before it, unless the
    command is an upload: the message is not the bot's own, it starts with
    "!" and its first field without that prefix is the word [upload]. *)
Lemma CommandCenter_catalog env s m b disk :
  let b' := (CommandCenter env s m b disk).1.1.1 in
  Manager b' = Manager b \/
  (b' = (HandleUpload env s m b disk).1.1.1 /\
   Author_ID m <> State_User_ID s /\
   HasPrefix (Content m) "!" = true /\
   exists arg0 args,
     Fields (Content m) = arg0 :: args /\ TrimPrefix arg0 "!" = "upload").
Proof.
  unfold CommandCenter.
  destruct (String.eqb (Author_ID m) (State_User_ID s)) eqn:Hme; [now left|].
  apply String.eqb_neq in Hme.
  destruct (State_Channel s (ChannelID m)) as [c|]; [|now left].
  destruct (State_Guild s (Channel_GuildID c)) as [g|]; [|now left].
  destruct (HasPrefix (Content m) "!") eqn:Hbang; [|now left].
  destruct (Fields (Content m)) as [|arg0 args] eqn:Hfields; [now left|].
  cbn [lookup list_lookup].
  destruct (String.eqb (TrimPrefix arg0 "!") "join").
  { left. destruct (HandleJoin_effect s g c m b) as [H|(_ & vc & H)];
      destruct (HandleJoin s g c m b) as [b1 tr1]; cbn [fst] in *; now subst. }
  destruct (String.eqb (TrimPrefix arg0 "!") "leave").
  { left. destruct (HandleLeave_effect s g b) as [H|H];
      destruct (HandleLeave s g b) as [b1 tr1]; cbn [fst] in *; now subst. }
  destruct (String.eqb (TrimPrefix arg0 "!") "play").
  { destruct args as [|arg1 args]; [now left|]. cbn [lookup list_lookup].
    left.
    destruct (HandlePlay_effect s g c (TrimPrefix arg1 "-") b)
      as [H|(gs & gs' & _ & H & _)];
      destruct (HandlePlay s g c (TrimPrefix arg1 "-") b) as [[b1 tr1] e1];
      cbn [fst] in *; now subst. }
  destruct (String.eqb (TrimPrefix arg0 "!") "list"); [now left|].
  destruct (String.eqb (TrimPrefix arg0 "!") "upload") eqn:Hupload.
  { right. apply String.eqb_eq in Hupload.
    split; [now destruct (HandleUpload env s m b disk) as [[[? ?] ?] ?]|].
    split; [exact Hme|]. split; [reflexivity|]. now exists arg0, args. }
  destruct (String.eqb (TrimPrefix arg0 "!") "record"); now left.
Qed.

(** X16.  A command touches the session of one tenant only, the guild of the
    channel the message came from: the registry entry of every other
    tenant is the same after the command.  Only an upload can change the
    catalog: when the catalog after the command is not the one before it,
    the message is not the bot's own, it starts with "!", its first field
    without that prefix is the word [upload], and the bot is the one
    [HandleUpload] leaves. *)
Theorem CommandCenter_tenant_isolation (env : UploadEnv) (s : Session)
    (m : MessageCreate) (b : Bot) (disk : Disk) (k : string) :
  (forall c g,
     State_Channel s (ChannelID m) = Some c ->
     State_Guild s (Channel_GuildID c) = Some g ->
     k <> Guild_ID g) ->
  let b' := (CommandCenter env s m b disk).1.1.1 in
  GuildSessions b' !! k = GuildSessions b !! k /\
  (Manager b' = Manager b \/
   (b' = (HandleUpload env s m b disk).1.1.1 /\
    Author_ID m <> State_User_ID s /\
    HasPrefix (Content m) "!" = true /\
    exists arg0 args,
      Fields (Content m) = arg0 :: args /\ TrimPrefix arg0 "!" = "upload")).
Proof.
  intros Hother b'. split.
  - exact (CommandCenter_other_sessions env s m b disk k Hother).
  - exact (CommandCenter_catalog env s m b disk).
Qed.

Lemma CommandCenter_tenant_isolation_witness :
  let other := mkGuildSession "h" "Other" (mkVoiceConnection "h" "v9" None)
                 (mkChan 10 [Demo.clip_a]) true in
  let b := set_session Demo.bot_joined "h" other in
  let m := Demo.upload_message "new.mp3" in
  let b' := (CommandCenter Demo.env Demo.session m b ∅).1.1.1 in
  GuildSessions b' !! "h" = GuildSessions b !! "h" /\
  (Manager b' = Manager b \/
   (b' = (HandleUpload Demo.env Demo.session m b ∅).1.1.1 /\
    Author_ID m <> State_User_ID Demo.session /\
    HasPrefix (Content m) "!" = true /\
    exists arg0 args,
      Fields (Content m) = arg0 :: args /\ TrimPrefix arg0 "!" = "upload")).
Proof.
  intros other b m b'.
  apply (CommandCenter_tenant_isolation Demo.env Demo.session m b ∅ "h").
  intros c g [= <-] [= <-]. discriminate.
Defined.

(** ** The console lines of [Load] *)

Lemma Load_outcome disk vm file :
  disk !! (name vm +:+ ".dca") = Some file ->
  (Load disk vm).2 = (Load_loop file (buffer vm)).2.
Proof. intros H. now rewrite (Load_lookup disk vm file H). Qed.

(** The loop of [Load] returns no other errors than the two of a short
    read. *)
Lemma Load_loop_error_kind file buf e :
  (Load_loop file buf).2 = Returned (Some e) -> e = EOF \/ e = ErrUnexpectedEOF.
Proof.
  intros H. destruct (Load_loop_explained file buf) as (frames & _ & _ & Hex).
  rewrite H in Hex. destruct Hex as (b0 & b1 & partial & _ & _ & _ & ->).
  destruct partial; [now left|now right].
Qed.

Lemma Load_lines disk vm file :
  disk !! (name vm +:+ ".dca") = Some file ->
  (Load disk vm).1.2 =
  match (Load disk vm).2 with
  | Returned (Some e) => [Println [AStr "Error reading from dca file2 :"; AErr e]]
  | _ => []
  end.
Proof.
  intros H. rewrite (Load_lookup disk vm file H). cbn [fst snd].
  apply Load_loop_lines.
Qed.

Lemma Load_missing disk vm :
  disk !! (name vm +:+ ".dca") = None ->
  Load disk vm =
  (vm, [Println [AStr "Error opening dca file :"; AErr ErrNotExist]],
   Returned (Some ErrNotExist)).
Proof. intros H. unfold Load. now rewrite H. Qed.

Lemma Load_lines_nil disk vm :
  (Load disk vm).2 = Returned None -> (Load disk vm).1.2 = [].
Proof.
  destruct (disk !! (name vm +:+ ".dca")) as [file|] eqn:Hfile.
  - intros H. now rewrite (Load_lines disk vm file Hfile), H.
  - now rewrite (Load_missing disk vm Hfile).
Qed.

Lemma Load_lines_panic disk vm msg :
  (Load disk vm).2 = Panicked msg -> (Load disk vm).1.2 = [].
Proof.
  destruct (disk !! (name vm +:+ ".dca")) as [file|] eqn:Hfile.
  - intros H. now rewrite (Load_lines disk vm file Hfile), H.
  - now rewrite (Load_missing disk vm Hfile).
Qed.


(** ** Uploads *)

(** X17.  An upload that fails before the conversion is silent: when the
    download, the creation of one of the two files or the copy fails,
    nothing is written to the chat, the bot is unchanged and the handler
    returns. *)
Theorem HandleUpload_silent_failure (env : UploadEnv) (s : Session)
    (m : MessageCreate) (b : Bot) (disk : Disk) (att : MessageAttachment)
    (rest : list MessageAttachment) :
  Attachments m = att :: rest ->
  (exists err, http_Get env (Att_URL att) = inr err) \/
  os_Create_ok env (Att_Filename att) = false \/
  io_Copy_ok env = false \/
  os_Create_ok env (Split_dot_0 (Att_Filename att) +:+ ".dca") = false ->
  let r := HandleUpload env s m b disk in
  r.1.1.1 = b /\ r.1.2 = [] /\ r.2 = Done.
Proof.
  intros Hatt Hfail r. unfold r, HandleUpload. rewrite Hatt.
  destruct (http_Get env (Att_URL att)) as [body|err]; [|now repeat split].
  destruct (os_Create_ok env (Att_Filename att)); [|now repeat split].
  destruct (io_Copy_ok env); [|now repeat split].
  destruct (os_Create_ok env (Split_dot_0 (Att_Filename att) +:+ ".dca"));
    [|now repeat split].
  exfalso. destruct Hfail as [[err H]|[H|[H|H]]]; discriminate.
Qed.

Lemma HandleUpload_silent_failure_witness :
  let env := mkUploadEnv (fun _ => inl [x01]) (fun _ => true) false (fun bytes => bytes) in
  let r := HandleUpload env Demo.session (Demo.upload_message "new.mp3") Demo.bot ∅ in
  r.1.1.1 = Demo.bot /\ r.1.2 = [] /\ r.2 = Done.
Proof.
  intros env.
  apply (HandleUpload_silent_failure env Demo.session (Demo.upload_message "new.mp3")
           Demo.bot ∅ (mkAttachment "http://files/clip" "new.mp3") []).
  - reflexivity.
  - right. right. left. reflexivity.
Defined.

(** X18.  The files of an upload whose download and conversion went through,
    whatever [Load] makes of the result: the downloaded file is removed
    again, every other file but the converted one is untouched, and the
    converted file [<n>.dca] holds what the conversion wrote, unless the
    attachment itself was called [<n>.dca]: then the converted file is the
    downloaded file and is gone as well. *)
Theorem HandleUpload_files (env : UploadEnv) (s : Session) (m : MessageCreate)
    (b : Bot) (disk : Disk) (att : MessageAttachment)
    (rest : list MessageAttachment) (body : list byte) :
  Attachments m = att :: rest ->
  http_Get env (Att_URL att) = inl body ->
  os_Create_ok env (Att_Filename att) = true ->
  io_Copy_ok env = true ->
  os_Create_ok env (Split_dot_0 (Att_Filename att) +:+ ".dca") = true ->
  let converted := Split_dot_0 (Att_Filename att) +:+ ".dca" in
  let disk' := (HandleUpload env s m b disk).1.1.2 in
  disk' !! Att_Filename att = None /\
  (Att_Filename att <> converted -> disk' !! converted = Some (transcode env body)) /\
  (forall k, k <> Att_Filename att -> k <> converted -> disk' !! k = disk !! k).
Proof.
  intros Hatt Hget Hc1 Hcopy Hc2 converted disk'.
  assert (Hdisk : disk' = delete (Att_Filename att)
                            (uploaded_disk env (Att_Filename att) body disk)).
  { unfold disk'.
    rewrite (HandleUpload_converted env s m b disk att rest body Hatt Hget Hc1 Hcopy Hc2).
    cbv zeta. now destruct (Load _ _).2. }
  rewrite Hdisk. unfold uploaded_disk. fold converted. split; [|split].
  - apply lookup_delete_eq.
  - intros Hne. rewrite lookup_delete_ne by exact Hne.
    rewrite lookup_insert_eq. f_equal. f_equal.
    rewrite lookup_insert_ne by congruence. now rewrite lookup_insert_eq.
  - intros k Hk1 Hk2. rewrite lookup_delete_ne by congruence.
    now rewrite !lookup_insert_ne by congruence.
Qed.

Lemma HandleUpload_files_witness :
  let disk' := (HandleUpload Demo.env Demo.session (Demo.upload_message "new.mp3")
                  Demo.bot Demo.disk).1.1.2 in
  disk' !! "new.mp3" = None /\
  ("new.mp3" <> "new.dca" -> disk' !! "new.dca" = Some [x01; x02; x03]) /\
  (forall k, k <> "new.mp3" -> k <> "new.dca" -> disk' !! k = Demo.disk !! k).
Proof.
  apply (HandleUpload_files Demo.env Demo.session (Demo.upload_message "new.mp3")
           Demo.bot Demo.disk (mkAttachment "http://files/clip" "new.mp3") []
           [x01; x02; x03]); reflexivity.
Defined.



(** ** The dispatcher's panics *)

Lemma Fields_from_word s : forall skip w, Fields_from skip (Some w) s <> [].
Proof.
  induction s as [|ch s IH]; intros skip w; [discriminate|].
  cbn [Fields_from]. destruct skip as [|k]; [|apply IH].
  destruct (space_width (String ch s)); [apply IH|discriminate].
Qed.

(** A content that starts with [!] has a first field. *)
Lemma Fields_command content :
  HasPrefix content "!" = true -> exists arg0 args, Fields content = arg0 :: args.
Proof.
  unfold HasPrefix. destruct content as [|ch content]; [discriminate|].
  cbn [String.prefix]. destruct (ascii_dec "!" ch) as [<-|]; [|discriminate].
  intros _. unfold Fields. cbn [Fields_from].
  change (space_width (String "!" content)) with 0%nat. cbv iota.
  destruct (Fields_from _ _ content) as [|arg0 args] eqn:E;
    [now apply Fields_from_word in E|eauto].
Qed.

(** White space outside ASCII separates fields as well: a no-break space
    (U+00A0, the bytes C2 A0) after [!play] ends the field, so that a
    message made of [!play] and a no-break space has one field and the
    dispatcher panics on [args[1]]. *)
Example Fields_no_break_space :
  let nbsp := String (ascii_of_nat 194) (String (ascii_of_nat 160) EmptyString) in
  Fields ("!play" +:+ nbsp +:+ "a") = ["!play"; "a"] /\
  Fields ("!play" +:+ nbsp) = ["!play"] /\
  (CommandCenter Demo.env Demo.session (Demo.message "u1" ("!play" +:+ nbsp))
     Demo.bot_joined ∅).2 = Panic "index out of range [1] with length 1".
Proof. repeat split; vm_compute; reflexivity. Qed.

Lemma HandlePlay_never_panics s g c fileName b msg :
  (HandlePlay s g c fileName b).2 <> Panic msg.
Proof.
  unfold HandlePlay. destruct (GuildSessions b !! Guild_ID g) as [gs|]; [|discriminate].
  destruct (Get (Manager b) fileName) as [vm|]; [|discriminate].
  destruct (Enqueue gs vm) as [gs1 tr1].
  destruct (PlayFromQueue gs1) as [[gs2 tr2] e] eqn:Hplay. cbn [snd].
  destruct (IsVoicePlaying gs1) eqn:Hidle.
  - rewrite (PlayFromQueue_playing gs1 Hidle) in Hplay. injection Hplay as _ _ <-.
    discriminate.
  - destruct (PlayFromQueue_idle _ _ _ _ Hidle Hplay) as [(-> & _)|(-> & _)];
      discriminate.
Qed.

(** X20.  The two ways a command can panic: [!play] without a clip name
    ([args[1]] out of range), and an upload whose converted file makes
    [Load] panic.  No other message makes [CommandCenter] panic; [args[0]]
    is always in range. *)
Theorem CommandCenter_panics_only (env : UploadEnv) (s : Session)
    (m : MessageCreate) (b : Bot) (disk : Disk) (msg : string) :
  (CommandCenter env s m b disk).2 = Panic msg ->
  (msg = "index out of range [1] with length 1" /\
   exists arg0, Fields (Content m) = [arg0] /\ TrimPrefix arg0 "!" = "play") \/
  (msg = "makeslice: len out of range" /\
   (HandleUpload env s m b disk).2 = Panic msg /\
   exists arg0 args, Fields (Content m) = arg0 :: args /\ TrimPrefix arg0 "!" = "upload").
Proof.
  unfold CommandCenter.
  destruct (String.eqb (Author_ID m) (State_User_ID s)); [discriminate|].
  destruct (State_Channel s (ChannelID m)) as [c|]; [|discriminate].
  destruct (State_Guild s (Channel_GuildID c)) as [g|]; [|discriminate].
  destruct (HasPrefix (Content m) "!") eqn:Hbang; [|discriminate].
  destruct (Fields_command _ Hbang) as (arg0 & args & Hfields). rewrite Hfields.
  cbn [lookup list_lookup].
  destruct (String.eqb (TrimPrefix arg0 "!") "join");
    [now destruct (HandleJoin s g c m b)|].
  destruct (String.eqb (TrimPrefix arg0 "!") "leave");
    [now destruct (HandleLeave s g b)|].
  destruct (String.eqb (TrimPrefix arg0 "!") "play") eqn:Hplay.
  { apply String.eqb_eq in Hplay. destruct args as [|arg1 args].
    - intros [= <-]. left. split; [reflexivity|]. now exists arg0.
    - cbn [lookup list_lookup].
      pose proof (HandlePlay_never_panics s g c (TrimPrefix arg1 "-") b msg) as Hno.
      destruct (HandlePlay s g c (TrimPrefix arg1 "-") b) as [[b' tr] e].
      cbn [snd] in *. intros ->. now destruct Hno. }
  destruct (String.eqb (TrimPrefix arg0 "!") "list"); [discriminate|].
  destruct (String.eqb (TrimPrefix arg0 "!") "upload") eqn:Hupload.
  { apply String.eqb_eq in Hupload.
    destruct (HandleUpload env s m b disk) as [[[b' disk'] tr] e] eqn:Hup.
    cbn [snd]. intros ->. right.
    assert (Hmsg : msg = "makeslice: len out of range").
    { revert Hup. unfold HandleUpload.
      destruct (Attachments m) as [|att rest]; [discriminate|].
      destruct (http_Get env (Att_URL att)); [|discriminate].
      destruct (negb (os_Create_ok env (Att_Filename att))); [discriminate|].
      destruct (negb (io_Copy_ok env)); [discriminate|].
      destruct (negb (os_Create_ok env _)); [discriminate|].
      match goal with |- context [Load ?d ?v] =>
        pose proof (Load_panic_message d v) as Hpm; destruct (Load d v) as [[vm log] out] end.
      destruct out as [err|msg']; [discriminate|].
      intros [= _ _ _ <-]. now apply Hpm. }
    split; [exact Hmsg|]. split; [reflexivity|]. now exists arg0, args. }
  destruct (String.eqb (TrimPrefix arg0 "!") "record"); discriminate.
Qed.

Lemma CommandCenter_panics_only_witness :
  ("index out of range [1] with length 1" = "index out of range [1] with length 1" /\
   exists arg0, Fields "!play" = [arg0] /\ TrimPrefix arg0 "!" = "play") \/
  ("index out of range [1] with length 1" = "makeslice: len out of range" /\
   (HandleUpload Demo.env Demo.session (Demo.message "u1" "!play") Demo.bot_joined ∅).2 =
     Panic "index out of range [1] with length 1" /\
   exists arg0 args, Fields "!play" = arg0 :: args /\ TrimPrefix arg0 "!" = "upload").
Proof.
  apply (CommandCenter_panics_only Demo.env Demo.session (Demo.message "u1" "!play")
           Demo.bot_joined ∅ "index out of range [1] with length 1").
  reflexivity.
Defined.

(** ** Concurrent triggers: what the race cannot do *)

Module RaceFrames.
Import Race.

Lemma move_frames cfg i :
  all_frames (move step cfg i) ≡ₚ all_frames cfg.
Proof.
  unfold move. destruct (goroutines cfg !! i) as [pc|] eqn:Hi; [|reflexivity].
  destruct cfg as [sh l]. cbn [goroutines shared] in *.
  assert (Hlt : (i < length l)%nat) by (eapply lookup_lt_Some, Hi).
  destruct (step sh pc) as [sh' pc'] eqn:Hstep.
  unfold all_frames. cbn [goroutines shared].
  rewrite (insert_take_drop l i pc' Hlt).
  rewrite <- (take_drop_middle l i pc Hi) at 3.
  rewrite !fmap_app, !fmap_cons, !concat_app. cbn [concat].
  set (A := concat (in_flight <$> take i l)).
  set (B := concat (in_flight <$> drop (S i) l)).
  destruct sh as [fl q sn].
  destruct pc as [| | | |[|buff frames]| | |]; cbn in Hstep;
    try (injection Hstep as <- <-; reflexivity).
  - destruct fl; injection Hstep as <- <-; reflexivity.
  - destruct q as [|dequeued q]; injection Hstep as <- <-; cbn [in_flight sent queue app].
    + reflexivity.
    + rewrite fmap_cons. cbn [concat]. apply Permutation_app_head.
      rewrite <- !app_assoc. apply Permutation_app_head.
      rewrite !app_assoc. apply Permutation_app_tail. apply Permutation_app_comm.
  - injection Hstep as <- <-. cbn [in_flight sent queue app].
    rewrite <- !app_assoc. apply Permutation_app_head. cbn [app].
    rewrite <- !app_assoc. apply Permutation_middle.
Qed.

Lemma run_frames schedule : forall cfg,
  all_frames (run step cfg schedule) ≡ₚ all_frames cfg.
Proof.
  induction schedule as [|i schedule IH]; intros cfg; [reflexivity|].
  cbn [run foldl]. etransitivity; [apply IH|apply move_frames].
Qed.

Lemma run_app stmt cfg s1 s2 :
  run stmt cfg (s1 ++ s2) = run stmt (run stmt cfg s1) s2.
Proof. unfold run. apply foldl_app. Qed.

Lemma send_steps frames : forall fl q sn,
  run step (mkConfig (mkShared fl q sn) [AtSend frames])
    (replicate (length frames) 0%nat) =
  mkConfig (mkShared fl q (sn ++ frames)) [AtSend []].
Proof.
  induction frames as [|buff frames IH]; intros fl q sn.
  - cbn. now rewrite app_nil_r.
  - cbn [length replicate run foldl]. unfold move at 2. cbn.
    fold (run step). unfold run in IH. rewrite IH. now rewrite <- app_assoc.
Qed.

Lemma select_steps q : forall sn,
  exists k,
    run step (mkConfig (mkShared true q sn) [AtSelect]) (replicate k 0%nat) =
    mkConfig (mkShared false [] (sn ++ concat (buffer <$> q))) [Finished].
Proof.
  induction q as [|dequeued q IH]; intros sn.
  - exists 2%nat. cbn. now rewrite app_nil_r.
  - destruct (IH (sn ++ buffer dequeued)) as [k Hk].
    exists (1 + (length (buffer dequeued) + (2 + k)))%nat.
    rewrite !replicate_add, !run_app.
    change (run step (mkConfig (mkShared true (dequeued :: q) sn) [AtSelect])
              (replicate 1 0%nat))
      with (mkConfig (mkShared true q sn) [AtSend (buffer dequeued)]).
    rewrite send_steps.
    change (run step (mkConfig (mkShared true q (sn ++ buffer dequeued)) [AtSend []])
              (replicate 2 0%nat))
      with (mkConfig (mkShared true q (sn ++ buffer dequeued)) [AtSelect]).
    rewrite Hk, fmap_cons. cbn [concat]. now rewrite app_assoc.
Qed.

End RaceFrames.

(** X21.  Whatever the schedule and the number of concurrent triggers, the race
    neither loses nor duplicates nor invents a frame: the frames sent,
    those a goroutine has dequeued and not sent yet, and those still in the
    queue are together a permutation of the frames that were queued at the
    start.  Only the order of the frames of different clips is at stake. *)
Theorem race_keeps_frames (n : nat) (queue : list VoiceMemo) (schedule : list nat) :
  Race.all_frames (Race.run Race.step (Race.triggers n queue) schedule)
  ≡ₚ concat (buffer <$> queue).
Proof.
  rewrite RaceFrames.run_frames. unfold Race.all_frames, Race.triggers. cbn.
  induction n as [|n IH]; [reflexivity|exact IH].
Qed.

(** X22.  A trigger that runs alone, statement by statement, does what the
    sequential [PlayFromQueue] does on an idle session with a live
    connection: after enough steps it has returned, the flag is clear, the
    queue is empty, and the frames sent are those of the function's trace,
    every frame of every clip in order. *)
Theorem lone_trigger_agrees (gs : GuildSession) :
  IsVoicePlaying gs = false ->
  VC_OpusCredit (VoiceConnection gs) = None ->
  exists k,
    let cfg := Race.run Race.step (Race.triggers 1 (chan_buf (PlayQueue gs)))
                 (replicate k 0%nat) in
    Race.goroutines cfg = [Race.Finished] /\
    Race.flag (Race.shared cfg) = IsVoicePlaying (PlayFromQueue gs).1.1 /\
    Race.queue (Race.shared cfg) = chan_buf (PlayQueue (PlayFromQueue gs).1.1) /\
    Race.sent (Race.shared cfg) = frames_of (PlayFromQueue gs).1.2 /\
    Race.sent (Race.shared cfg) = concat (buffer <$> chan_buf (PlayQueue gs)).
Proof.
  intros Hidle Hlive.
  destruct (RaceFrames.select_steps (chan_buf (PlayQueue gs)) []) as [k Hk].
  exists (3 + k)%nat. rewrite replicate_add, RaceFrames.run_app.
  change (Race.run Race.step (Race.triggers 1 (chan_buf (PlayQueue gs)))
            (replicate 3 0%nat))
    with (Race.mkConfig (Race.mkShared true (chan_buf (PlayQueue gs)) []) [Race.AtSelect]).
  rewrite Hk. rewrite (PlayFromQueue_live gs Hidle Hlive). cbn [fst snd].
  rewrite frames_of_drain_trace. cbn. repeat split.
Qed.

Lemma lone_trigger_agrees_witness :
  exists k,
    let gs := mkGuildSession "g" "Guild" (mkVoiceConnection "g" "v1" None)
                (mkChan 10 [Demo.clip_a; Demo.clip_b]) false in
    let cfg := Race.run Race.step (Race.triggers 1 [Demo.clip_a; Demo.clip_b])
                 (replicate k 0%nat) in
    Race.goroutines cfg = [Race.Finished] /\
    Race.flag (Race.shared cfg) = IsVoicePlaying (PlayFromQueue gs).1.1 /\
    Race.queue (Race.shared cfg) = chan_buf (PlayQueue (PlayFromQueue gs).1.1) /\
    Race.sent (Race.shared cfg) = frames_of (PlayFromQueue gs).1.2 /\
    Race.sent (Race.shared cfg) = [[x41]; [x42]; [x43]].
Proof.
  exact (lone_trigger_agrees
           (mkGuildSession "g" "Guild" (mkVoiceConnection "g" "v1" None)
              (mkChan 10 [Demo.clip_a; Demo.clip_b]) false)
           eq_refl eq_refl).
Defined.

(** ** Sessions between commands *)

Lemma send_buffer_blocks frames : forall vc vc' tr,
  send_buffer vc frames = (vc', tr, Blocks) -> VC_OpusCredit vc' = Some 0%nat.
Proof.
  induction frames as [|buff frames IH]; intros vc vc' tr H; [discriminate|].
  cbn [send_buffer] in H. destruct (VC_OpusCredit vc) as [[|n]|] eqn:Hcredit.
  - injection H as <- _. exact Hcredit.
  - destruct (send_buffer _ frames) as [[vc1 tr1] e1] eqn:Hrec.
    injection H as <- _ ->. exact (IH _ _ _ Hrec).
  - destruct (send_buffer _ frames) as [[vc1 tr1] e1] eqn:Hrec.
    injection H as <- _ ->. exact (IH _ _ _ Hrec).
Qed.

Lemma drain_blocks queue : forall vc vc' rest tr,
  drain vc queue = (vc', rest, tr, Blocks) -> VC_OpusCredit vc' = Some 0%nat.
Proof.
  induction queue as [|dequeued queue IH]; intros vc vc' rest tr H; [discriminate|].
  cbn [drain] in H.
  destruct (send_buffer vc (buffer dequeued)) as [[vc1 tr1] e1] eqn:Hsend.
  destruct e1.
  - destruct (drain vc1 queue) as [[[vc2 rest2] tr2] e2] eqn:Hrec.
    injection H as <- _ _ ->. exact (IH _ _ _ _ Hrec).
  - discriminate.
  - injection H as <- _ _. exact (send_buffer_blocks _ _ _ _ Hsend).
Qed.

Lemma PlayFromQueue_settles gs :
  (IsVoicePlaying gs = true -> VC_OpusCredit (VoiceConnection gs) = Some 0%nat) ->
  let gs' := (PlayFromQueue gs).1.1 in
  (IsVoicePlaying gs' = false -> chan_buf (PlayQueue gs') = []) /\
  (IsVoicePlaying gs' = true -> VC_OpusCredit (VoiceConnection gs') = Some 0%nat).
Proof.
  intros Hstuck. unfold PlayFromQueue.
  destruct (IsVoicePlaying gs) eqn:Hflag.
  - cbn [fst]. rewrite Hflag. split; [discriminate|exact Hstuck].
  - destruct (drain (VoiceConnection gs) (chan_buf (PlayQueue gs)))
      as [[[vc1 rest] tr1] e1] eqn:Hdrain.
    destruct (drain_spec _ _ _ _ _ _ Hdrain) as [(-> & -> & _)|(-> & _)]; cbn.
    + split; [reflexivity|discriminate].
    + split; [discriminate|]. intros _. exact (drain_blocks _ _ _ _ _ Hdrain).
Qed.

Lemma Enqueue_keeps_connection gs vm :
  VoiceConnection (Enqueue gs vm).1 = VoiceConnection gs.
Proof.
  unfold Enqueue.
  now destruct (length (chan_buf (PlayQueue gs)) <? chan_cap (PlayQueue gs))%nat.
Qed.

Lemma sessions_settled_command env s m b disk :
  sessions_settled b -> sessions_settled (CommandCenter env s m b disk).1.1.1.
Proof.
  intros Hinv.
  destruct (CommandCenter_effect env s m b disk) as [->|[->|(c & g & _ & _ & H)]].
  - exact Hinv.
  - destruct (HandleUpload_effect env s m b disk) as [->|(f & vm & _ & ->)]; exact Hinv.
  - destruct H as [->|[->|(f & ->)]].
    + destruct (HandleJoin_effect s g c m b) as [->|(_ & vc & ->)]; [exact Hinv|].
      intros k gs Hk. cbn [set_session GuildSessions] in Hk.
      destruct (decide (Guild_ID g = k)) as [<-|Hne].
      * rewrite lookup_insert_eq in Hk. injection Hk as <-. cbn.
        split; [reflexivity|discriminate].
      * rewrite lookup_insert_ne in Hk by exact Hne. exact (Hinv _ _ Hk).
    + destruct (HandleLeave_effect s g b) as [->| ->]; [exact Hinv|].
      intros k gs Hk. cbn [GuildSessions] in Hk.
      apply lookup_delete_Some in Hk as [_ Hk]. exact (Hinv _ _ Hk).
    + unfold HandlePlay.
      destruct (GuildSessions b !! Guild_ID g) as [gs|] eqn:Hreg; [|exact Hinv].
      destruct (Get (Manager b) f) as [vm|]; [|exact Hinv].
      pose proof (Enqueue_keeps_flag gs vm) as [Hflag _].
      pose proof (Enqueue_keeps_connection gs vm) as Hvc.
      destruct (Enqueue gs vm) as [gs1 tr1]. cbn [fst snd] in *.
      assert (Hstuck : IsVoicePlaying gs1 = true ->
                       VC_OpusCredit (VoiceConnection gs1) = Some 0%nat).
      { rewrite Hflag, Hvc. apply (Hinv _ _ Hreg). }
      pose proof (PlayFromQueue_settles gs1 Hstuck) as Hsettled.
      destruct (PlayFromQueue gs1) as [[gs2 tr2] e]. cbn [fst snd] in *.
      intros k gs' Hk. cbn [set_session GuildSessions] in Hk.
      destruct (decide (Guild_ID g = k)) as [<-|Hne].
      * rewrite lookup_insert_eq in Hk. injection Hk as <-. exact Hsettled.
      * rewrite lookup_insert_ne in Hk by exact Hne. exact (Hinv _ _ Hk).
Qed.

(** X23.  Between commands, in every state the program reaches one command after
    the other: a session that is not playing has an empty queue, so no
    queued clip waits for a later play; and a session is left playing only
    when its connection has stopped receiving frames. *)
Theorem reachable_sessions_settled (disk0 : Disk) (b : Bot) (disk : Disk) :
  reachable disk0 b disk -> sessions_settled b.
Proof.
  intros Hreach. induction Hreach as [ne oe b tr Hmain|b disk env s m _ IH].
  - destruct (main_serving _ _ _ _ _ Hmain) as (m0 & _ & -> & _).
    intros k gs Hk. cbn in Hk. now rewrite lookup_empty in Hk.
  - now apply sessions_settled_command.
Qed.

Lemma reachable_sessions_settled_witness :
  let b := match (main None None (Some Demo.disk)).1 with
           | Serving b => b
           | _ => NewBot (mkVoiceMemoManager ∅)
           end in
  let b1 := (CommandCenter Demo.env Demo.session_lossy (Demo.message "u1" "!join")
               b Demo.disk).1.1.1 in
  sessions_settled
    (CommandCenter Demo.env Demo.session_lossy (Demo.message "u1" "!play good")
       b1 Demo.disk).1.1.1.
Proof.
  intros b b1.
  apply (reachable_sessions_settled Demo.disk _
           (CommandCenter Demo.env Demo.session_lossy (Demo.message "u1" "!play good")
              b1 Demo.disk).1.1.2).
  apply (reachable_command Demo.disk b1 Demo.disk).
  apply (reachable_command Demo.disk b Demo.disk).
  apply (reachable_main Demo.disk None None b
           (main None None (Some Demo.disk)).2).
  vm_compute. reflexivity.
Defined.

(** ** The clip catalog: claim C6 *)







